(** * Static suite results generator: scoring, runner and report

    A shallow embedding of [scripts/generate-results.ts]: the expectation
    checks of one test case, the score and pass flag derived from them, the
    concurrency-limited task runner and the suite report assembled from its
    results.

    JavaScript numbers are modelled by exact rationals [Q]; the results of
    a division whose divisor is zero (NaN, infinities) are modelled by
    [None].  Comparisons of numbers are exact in double precision as well;
    for the rounded quantities the properties depend on, the score of a case
    and the overall score of a report, the double-precision values are
    computed too ([doubleScore], [doubleOverallScoreOf]) and related to the
    rational ones.  String-literal union types are inductive types together
    with the string each value is at run time. *)

From Stdlib Require Import QArith Lqa ZArith List Bool Sorted.
From Stdlib Require PrimFloat Uint63 FloatOps SpecFloat.
From stdpp Require Import gmap strings list fin_maps pretty.

Open Scope string_scope.
Open Scope list_scope.

(** ** Enumerations (lines 37-39) *)

Inductive Severity := none | mild | moderate | high | critical.
Inductive Imminence := not_applicable | chronic | subacute | urgent | emergency.
Inductive RiskDomain := self | others | dependent_at_risk | victimisation.
Inductive MashRating := mash_low | mash_medium | mash_high | mash_urgent.
Inductive DashRating := dash_low | dash_medium | dash_high.

#[global] Instance Severity_eq_dec : EqDecision Severity.
Proof. solve_decision. Defined.
#[global] Instance Imminence_eq_dec : EqDecision Imminence.
Proof. solve_decision. Defined.
#[global] Instance RiskDomain_eq_dec : EqDecision RiskDomain.
Proof. solve_decision. Defined.

(** The run-time string of each value. *)
Definition severity_str (s : Severity) : string :=
  match s with
  | none => "none" | mild => "mild" | moderate => "moderate"
  | high => "high" | critical => "critical"
  end.

Definition domain_str (d : RiskDomain) : string :=
  match d with
  | self => "self" | others => "others"
  | dependent_at_risk => "dependent_at_risk" | victimisation => "victimisation"
  end.

Definition mash_str (m : MashRating) : string :=
  match m with
  | mash_low => "low" | mash_medium => "medium"
  | mash_high => "high" | mash_urgent => "urgent"
  end.

Definition dash_str (m : DashRating) : string :=
  match m with
  | dash_low => "low" | dash_medium => "medium" | dash_high => "high"
  end.

(** ** JavaScript primitives used by the script *)

(** Truthiness of a string ([if (s)]): every string but the empty one. *)
Definition truthy_str (s : string) : bool :=
  match s with EmptyString => false | String _ _ => true end.

(** Truthiness of a number ([if (x)]): every rational but zero. *)
Definition truthy_num (x : Q) : bool := negb (Qeq_bool x 0).

(** [a >= b] on numbers. *)
Definition num_ge (a b : Q) : bool := Qle_bool b a.

(** [Array.prototype.includes]. *)
Fixpoint includes {A} `{EqDecision A} (l : list A) (x : A) : bool :=
  match l with
  | [] => false
  | y :: l' => if decide (y = x) then true else includes l' x
  end.

(** [Array.prototype.indexOf]: the first position of [x], or -1. *)
Fixpoint indexOf_from {A} `{EqDecision A} (l : list A) (x : A) (i : Z) : Z :=
  match l with
  | [] => (-1)%Z
  | y :: l' => if decide (y = x) then i else indexOf_from l' x (i + 1)%Z
  end.

Definition indexOf {A} `{EqDecision A} (l : list A) (x : A) : Z :=
  indexOf_from l x 0%Z.

(** [Object.values], [Object.keys] of a string-keyed object. *)
Definition values {V} (o : gmap string V) : list V := (map_to_list o).*2.
Definition keys {V} (o : gmap string V) : list string := (map_to_list o).*1.

(** The spread [{ ...a, ...b }]: the properties of [b] win. *)
Definition spread {V} (a b : gmap string V) : gmap string V := b ∪ a.

(** ** Suite format (lines 42-73) *)

Module Message.
Record t := { role : string; content : string }.
End Message.

Module ExpectedDomain.
Record t := {
  domain : RiskDomain;
  min_severity : option Severity;
  min_imminence : option Imminence;
  min_confidence : option Q
}.
End ExpectedDomain.

Module ExpectedLegalFlags.
Record t := {
  duty_to_warn : option bool;
  child_safeguarding_urgent : option bool;
  vulnerable_adult_safeguarding : option bool;
  mash_rating : option MashRating;
  dash_rating : option DashRating;
  animal_cruelty : option bool
}.
End ExpectedLegalFlags.

Module TestCase.
Record t := {
  case_id : string;
  description : string;
  conversation : list Message.t;
  expected_overall_severity : Severity;
  acceptable_severities : option (list Severity);
  expected_overall_imminence : Imminence;
  acceptable_imminence : option (list Imminence);
  expected_min_confidence : Q;
  rationale : option string;
  expected_domains : option (list ExpectedDomain.t);
  expected_legal_flags : option ExpectedLegalFlags.t
}.
End TestCase.

Module TestSuite.
Record t := {
  test_set_id : string;
  version : string;
  description : string;
  cases : list TestCase.t
}.
End TestSuite.

(** ** Payload of the evaluation endpoint, as the script reads it *)

Module ApiDomain.
Record t := {
  domain : RiskDomain;
  severity : Severity;
  imminence : Imminence;
  confidence : Q;
  risk_features : option (list string);
  protective_factors : option (list string)
}.
End ApiDomain.

(** [legal_flags?.f?.present] and [legal_flags?.f?.level]: each step of the
    chain may be absent; [present] is [None] also when it is not a boolean,
    [level] when it is not a string. *)
Module PresentFlag.
Record t := { present : option bool }.
End PresentFlag.

Module LevelFlag.
Record t := { level : option string }.
End LevelFlag.

Module ApiLegalFlags.
Record t := {
  duty_to_warn : option PresentFlag.t;
  child_safeguarding_urgent : option PresentFlag.t;
  vulnerable_adult_safeguarding : option PresentFlag.t;
  mash_rating : option LevelFlag.t;
  dash_rating : option LevelFlag.t;
  animal_cruelty : option PresentFlag.t
}.
End ApiLegalFlags.

Module ApiGlobal.
Record t := {
  overall_severity : Severity;
  overall_imminence : Imminence;
  primary_concerns : option (list string)
}.
End ApiGlobal.

Module ApiResult.
Record t := {
  global : ApiGlobal.t;
  confidence : Q;
  domains : list ApiDomain.t;
  legal_flags : option ApiLegalFlags.t
}.
End ApiResult.

(** ** The expectation checks of one case (lines 231-278) *)

Definition severityLevels : list Severity := [none; mild; moderate; high; critical].

(** Lines 232-233: [acceptable || [expected]]; an array, even an empty one,
    is truthy. *)
Definition acceptableSeverities (testCase : TestCase.t) : list Severity :=
  match TestCase.acceptable_severities testCase with
  | Some l => l
  | None => [TestCase.expected_overall_severity testCase]
  end.

Definition acceptableImminence (testCase : TestCase.t) : list Imminence :=
  match TestCase.acceptable_imminence testCase with
  | Some l => l
  | None => [TestCase.expected_overall_imminence testCase]
  end.

(** Lines 235-239: the three baseline checks. *)
Definition baseChecks (testCase : TestCase.t) (result : ApiResult.t) : gmap string bool :=
  <["confidence" :=
      num_ge (ApiResult.confidence result) (TestCase.expected_min_confidence testCase)]>
  (<["overall_imminence" :=
      includes (acceptableImminence testCase)
               (ApiGlobal.overall_imminence (ApiResult.global result))]>
  (<["overall_severity" :=
      includes (acceptableSeverities testCase)
               (ApiGlobal.overall_severity (ApiResult.global result))]>
   ∅)).

(** Line 245: [result.domains.find(d => d.domain === domain)], the first
    actual domain with the tag. *)
Definition findDomain (result : ApiResult.t) (domain : RiskDomain) : option ApiDomain.t :=
  List.find (fun d => bool_decide (ApiDomain.domain d = domain)) (ApiResult.domains result).

(** Lines 245-256: the body of the [forEach] over the expected domains. *)
Definition domainStep (result : ApiResult.t) (domainChecks : gmap string bool)
    (expectedDomain : ExpectedDomain.t) : gmap string bool :=
  match findDomain result (ExpectedDomain.domain expectedDomain) with
  | Some actualDomain =>
      let afterSeverity :=
        match ExpectedDomain.min_severity expectedDomain with
        | Some minSeverity =>
            if truthy_str (severity_str minSeverity) then
              let actualLevel := indexOf severityLevels (ApiDomain.severity actualDomain) in
              let expectedLevel := indexOf severityLevels minSeverity in
              <[domain_str (ExpectedDomain.domain expectedDomain) +:+ "_severity" :=
                  (actualLevel >=? expectedLevel)%Z]> domainChecks
            else domainChecks
        | None => domainChecks
        end in
      match ExpectedDomain.min_confidence expectedDomain with
      | Some minConfidence =>
          if truthy_num minConfidence then
            <[domain_str (ExpectedDomain.domain expectedDomain) +:+ "_confidence" :=
                num_ge (ApiDomain.confidence actualDomain) minConfidence]> afterSeverity
          else afterSeverity
      | None => afterSeverity
      end
  | None => domainChecks
  end.

(** Lines 242-258. *)
Definition domainChecksOf (testCase : TestCase.t) (result : ApiResult.t) : gmap string bool :=
  match TestCase.expected_domains testCase with
  | Some expected => fold_left (domainStep result) expected ∅
  | None => ∅
  end.

(** [result.legal_flags?.f?.present === expected]. *)
Definition present_is (f : option PresentFlag.t) (expected : bool) : bool :=
  match f with
  | Some pf =>
      match PresentFlag.present pf with
      | Some b => Bool.eqb b expected
      | None => false
      end
  | None => false
  end.

(** [result.legal_flags?.f?.level === expected]. *)
Definition level_is (f : option LevelFlag.t) (expected : string) : bool :=
  match f with
  | Some lf =>
      match LevelFlag.level lf with
      | Some s => bool_decide (s = expected)
      | None => false
      end
  | None => false
  end.

(** [result.legal_flags?.f]: the member [f] of an optional object. *)
Definition opt_member {A B} (o : option A) (f : A -> option B) : option B :=
  match o with Some a => f a | None => None end.

(** Lines 261-272. *)
Definition legalFlagChecksOf (testCase : TestCase.t) (result : ApiResult.t)
    : gmap string bool :=
  match TestCase.expected_legal_flags testCase with
  | Some flags =>
      let c1 :=
        match ExpectedLegalFlags.duty_to_warn flags with
        | Some b =>
            <["duty_to_warn" :=
                present_is (opt_member (ApiResult.legal_flags result)
                                       ApiLegalFlags.duty_to_warn) b]> ∅
        | None => ∅
        end in
      let c2 :=
        match ExpectedLegalFlags.mash_rating flags with
        | Some m =>
            <["mash_rating" :=
                level_is (opt_member (ApiResult.legal_flags result)
                                     ApiLegalFlags.mash_rating) (mash_str m)]> c1
        | None => c1
        end in
      match ExpectedLegalFlags.dash_rating flags with
      | Some m =>
          <["dash_rating" :=
              level_is (opt_member (ApiResult.legal_flags result)
                                   ApiLegalFlags.dash_rating) (dash_str m)]> c2
      | None => c2
      end
  | None => ∅
  end.

(** Line 274. *)
Definition allChecksOf (testCase : TestCase.t) (result : ApiResult.t) : gmap string bool :=
  spread (spread (baseChecks testCase result) (domainChecksOf testCase result))
         (legalFlagChecksOf testCase result).

(** Lines 275-278, on any check object. *)
Definition allPassedOf (allChecks : gmap string bool) : bool :=
  forallb (fun v => v) (values allChecks).

Definition totalChecksOf (allChecks : gmap string bool) : nat :=
  length (keys allChecks).

Definition passedChecksOf (allChecks : gmap string bool) : nat :=
  length (List.filter (fun v => v) (values allChecks)).

Definition scoreOf (allChecks : gmap string bool) : Q :=
  (inject_Z (Z.of_nat (passedChecksOf allChecks))
   / inject_Z (Z.of_nat (totalChecksOf allChecks))) * 100.

(** ** Result format (lines 76-138) *)

Module Expected.
Record t := {
  overall_severity : Severity;
  acceptable_severities : option (list Severity);
  overall_imminence : Imminence;
  acceptable_imminence : option (list Imminence);
  min_confidence : Q;
  rationale : option string;
  domains : option (list ExpectedDomain.t);
  legal_flags : option ExpectedLegalFlags.t
}.
End Expected.

Module Actual.
Record t := {
  overall_severity : Severity;
  overall_imminence : Imminence;
  confidence : Q;
  domains : list ApiDomain.t;
  legal_flags : option ApiLegalFlags.t;
  primary_concerns : option (list string)
}.
End Actual.

Module Checks.
Record t := {
  overall_severity : bool;
  overall_imminence : bool;
  confidence : bool;
  domains : option (gmap string bool);
  legal_flags : option (gmap string bool)
}.
End Checks.

Module TestCaseResult.
Record t := {
  case_id : string;
  description : string;
  input : list Message.t;
  expected : Expected.t;
  actual : Actual.t;
  passed : bool;
  checks : Checks.t;
  score : Q;
  error : option string
}.
End TestCaseResult.

Module StaticSuiteResults.
Record t := {
  suite_id : string;
  suite_version : string;
  suite_description : string;
  generated_at : string;
  api_endpoint : string;
  total_cases : nat;
  passed_cases : nat;
  failed_cases : nat;
  overall_score : option Q;
  cases : list TestCaseResult.t
}.
End StaticSuiteResults.

(** ** The classifier call (lines 177-205) *)

(** A value caught by [catch (error)]: an [Error] object with its message,
    or any other value with its [String(error)]. *)
Inductive Thrown :=
| ErrorObject (message : string)
| OtherValue (str : string).

(** Line 328 and line 353: [error instanceof Error ? error.message : String(error)]. *)
Definition errorText (error : Thrown) : string :=
  match error with
  | ErrorObject message => message
  | OtherValue str => str
  end.

(** What [fetch] answers: the response's [ok] and [status], and what
    [response.text()] and [response.json()] settle with. *)
Module Response.
Record t := {
  ok : bool;
  status : nat;
  text : Thrown + string;
  json : Thrown + ApiResult.t
}.
End Response.

Inductive FetchOutcome :=
| fetch_rejects (error : Thrown)
| fetch_resolves (response : Response.t).

(** Lines 190-204: the value the call resolves with, or what it throws. *)
Definition callNopeAPI (fetched : FetchOutcome) : Thrown + ApiResult.t :=
  match fetched with
  | fetch_rejects error => inl error
  | fetch_resolves response =>
      if negb (Response.ok response) then
        match Response.text response with
        | inl thrown => inl thrown
        | inr error =>
            inl (ErrorObject
                   ("API error (" +:+ pretty (Response.status response) +:+ "): " +:+ error))
        end
      else Response.json response
  end.

(** ** One task: call, check, score (lines 224-356) *)

(** Lines 287-325. *)
Definition successResult (testCase : TestCase.t) (result : ApiResult.t) : TestCaseResult.t :=
  let checks := baseChecks testCase result in
  let domainChecks := domainChecksOf testCase result in
  let legalFlagChecks := legalFlagChecksOf testCase result in
  let allChecks := spread (spread checks domainChecks) legalFlagChecks in
  let allPassed := allPassedOf allChecks in
  let score := scoreOf allChecks in
  {| TestCaseResult.case_id := TestCase.case_id testCase;
     TestCaseResult.description := TestCase.description testCase;
     TestCaseResult.input := TestCase.conversation testCase;
     TestCaseResult.expected :=
       {| Expected.overall_severity := TestCase.expected_overall_severity testCase;
          Expected.acceptable_severities := TestCase.acceptable_severities testCase;
          Expected.overall_imminence := TestCase.expected_overall_imminence testCase;
          Expected.acceptable_imminence := TestCase.acceptable_imminence testCase;
          Expected.min_confidence := TestCase.expected_min_confidence testCase;
          Expected.rationale := TestCase.rationale testCase;
          Expected.domains := TestCase.expected_domains testCase;
          Expected.legal_flags := TestCase.expected_legal_flags testCase |};
     TestCaseResult.actual :=
       {| Actual.overall_severity := ApiGlobal.overall_severity (ApiResult.global result);
          Actual.overall_imminence := ApiGlobal.overall_imminence (ApiResult.global result);
          Actual.confidence := ApiResult.confidence result;
          Actual.domains := ApiResult.domains result;
          Actual.legal_flags := ApiResult.legal_flags result;
          Actual.primary_concerns := ApiGlobal.primary_concerns (ApiResult.global result) |};
     TestCaseResult.passed := allPassed;
     TestCaseResult.checks :=
       {| Checks.overall_severity := checks !!! "overall_severity";
          Checks.overall_imminence := checks !!! "overall_imminence";
          Checks.confidence := checks !!! "confidence";
          Checks.domains :=
            if (0 <? length (keys domainChecks))%nat then Some domainChecks else None;
          Checks.legal_flags :=
            if (0 <? length (keys legalFlagChecks))%nat then Some legalFlagChecks else None |};
     TestCaseResult.score := score;
     TestCaseResult.error := None |}.

(** Lines 331-354. *)
Definition errorResult (testCase : TestCase.t) (error : Thrown) : TestCaseResult.t :=
  {| TestCaseResult.case_id := TestCase.case_id testCase;
     TestCaseResult.description := TestCase.description testCase;
     TestCaseResult.input := TestCase.conversation testCase;
     TestCaseResult.expected :=
       {| Expected.overall_severity := TestCase.expected_overall_severity testCase;
          Expected.acceptable_severities := None;
          Expected.overall_imminence := TestCase.expected_overall_imminence testCase;
          Expected.acceptable_imminence := None;
          Expected.min_confidence := TestCase.expected_min_confidence testCase;
          Expected.rationale := None;
          Expected.domains := None;
          Expected.legal_flags := None |};
     TestCaseResult.actual :=
       {| Actual.overall_severity := none;
          Actual.overall_imminence := not_applicable;
          Actual.confidence := 0;
          Actual.domains := [];
          Actual.legal_flags := None;
          Actual.primary_concerns := None |};
     TestCaseResult.passed := false;
     TestCaseResult.checks :=
       {| Checks.overall_severity := false;
          Checks.overall_imminence := false;
          Checks.confidence := false;
          Checks.domains := None;
          Checks.legal_flags := None |};
     TestCaseResult.score := 0;
     TestCaseResult.error := Some (errorText error) |}.

(** The task of one case: [try { ... } catch (error) { ... }]. *)
Definition task (testCase : TestCase.t) (fetched : FetchOutcome) : TestCaseResult.t :=
  match callNopeAPI fetched with
  | inr result => successResult testCase result
  | inl error => errorResult testCase error
  end.

(** ** JavaScript arrays written by index *)

(** An array is a list of slots, [None] being a hole.  [a[i] = x] beyond the
    end leaves holes between the old end and [i]. *)
Definition array_set {A} (a : list (option A)) (i : nat) (x : A) : list (option A) :=
  if decide (i < length a)%nat then <[i := Some x]> a
  else a ++ replicate (i - length a) None ++ [Some x].

(** ** The concurrency limiter (lines 143-172) *)

(** What the promise of a task settles with. *)
Inductive Settled (T : Type) :=
| fulfilled (value : T)
| rejected (error : Thrown).
Arguments fulfilled {T} value.
Arguments rejected {T} error.

(** The shared variables of [runWithConcurrency] and, for each worker, the
    index of the task it awaits ([None] once its [runNext] chain returned). *)
Record RunState (T : Type) := {
  index : nat;
  results : list (option (option T));
  workers : list (option nat)
}.
Arguments index {T} _.
Arguments results {T} _.
Arguments workers {T} _.

Section Runner.
Context {T : Type}.
(** [tasks[i]], identified with what its single call settles with. *)
Variable tasks : list (Settled T).

(** Lines 151-154, up to the [await]: return when the cursor is past the
    end, else claim the index under the cursor and advance it. *)
Definition runNext (index : nat) : nat * option nat :=
  if (length tasks <=? index)%nat then (index, None)
  else (S index, Some index).

(** Lines 166-168: [n] calls of [runNext] in a row, each running up to its
    first [await].  The worker count is a natural number (the script passes
    10; [Array] throws on a negative or fractional length). *)
Fixpoint spawn (n : nat) (index : nat) : nat * list (option nat) :=
  match n with
  | O => (index, [])
  | S n' =>
      let '(index1, w) := runNext index in
      let '(index2, ws) := spawn n' index1 in
      (index2, w :: ws)
  end.

Definition start (maxConcurrency : nat) : RunState T :=
  let '(index, ws) := spawn (Nat.min maxConcurrency (length tasks)) 0 in
  {| index := index; results := []; workers := ws |}.

(** Lines 156-161: the slot written when the awaited task settles. *)
Definition slotOf (s : Settled T) : option T :=
  match s with
  | fulfilled result => Some result
  | rejected _ => None
  end.

(** The task awaited by worker [k] settles: lines 156-163.  The store and
    the next claim run without interruption. *)
Definition settle (st : RunState T) (k : nat) : option (RunState T) :=
  match workers st !! k with
  | Some (Some currentIndex) =>
      match tasks !! currentIndex with
      | Some t =>
          let results' := array_set (results st) currentIndex (slotOf t) in
          let '(index', w) := runNext (index st) in
          Some {| index := index'; results := results'; workers := <[k := w]> (workers st) |}
      | None => None
      end
  | _ => None
  end.

(** A schedule names, in order, the worker whose task settles next. *)
Fixpoint run (sched : list nat) (st : RunState T) : option (RunState T) :=
  match sched with
  | [] => Some st
  | k :: sched' =>
      match settle st k with
      | Some st' => run sched' st'
      | None => None
      end
  end.

(** The tasks being awaited. *)
Definition inFlight (st : RunState T) : list nat := omap id (workers st).

(** Line 170: every worker has returned. *)
Definition allDone (st : RunState T) : bool :=
  forallb (fun w => match w with None => true | Some _ => false end) (workers st).

(** The array returned under a schedule that is a complete execution. *)
Definition runWithConcurrency (maxConcurrency : nat) (sched : list nat)
    : option (list (option (option T))) :=
  match run sched (start maxConcurrency) with
  | Some st => if allDone st then Some (results st) else None
  | None => None
  end.
End Runner.

(** ** The suite report (lines 207-406) *)

(** [a / b] on numbers; NaN and the infinities of a zero divisor are [None]. *)
Definition num_div (a b : Q) : option Q :=
  if Qeq_bool b 0 then None else Some (a / b)%Q.

(** Lines 362-366: [forEach] skips holes and throws on [undefined.passed]
    ([None]); otherwise it counts and pushes. *)
Fixpoint tally (taskResults : list (option (option TestCaseResult.t)))
    (passed failed : nat) (results : list TestCaseResult.t)
    : option (nat * nat * list TestCaseResult.t) :=
  match taskResults with
  | [] => Some (passed, failed, results)
  | None :: rest => tally rest passed failed results
  | Some None :: _ => None
  | Some (Some result) :: rest =>
      if TestCaseResult.passed result
      then tally rest (S passed) failed (results ++ [result])
      else tally rest passed (S failed) (results ++ [result])
  end.

(** Line 369 in exact arithmetic: the sum of the scores, added from 0 in
    order, over their number.  [doubleOverallScoreOf] is the same line in
    double precision, where the additions and the division round. *)
Definition overallScoreOf (results : list TestCaseResult.t) : option Q :=
  num_div (fold_left (fun sum r => (sum + TestCaseResult.score r)%Q) results 0%Q)
          (inject_Z (Z.of_nat (length results))).

(** Lines 362-383. *)
Definition report (suite : TestSuite.t) (apiUrl now : string)
    (taskResults : list (option (option TestCaseResult.t)))
    : option StaticSuiteResults.t :=
  match tally taskResults 0 0 [] with
  | Some (passed, failed, results) =>
      Some {| StaticSuiteResults.suite_id := TestSuite.test_set_id suite;
              StaticSuiteResults.suite_version := TestSuite.version suite;
              StaticSuiteResults.suite_description := TestSuite.description suite;
              StaticSuiteResults.generated_at := now;
              StaticSuiteResults.api_endpoint := apiUrl;
              StaticSuiteResults.total_cases := length (TestSuite.cases suite);
              StaticSuiteResults.passed_cases := passed;
              StaticSuiteResults.failed_cases := failed;
              StaticSuiteResults.overall_score := overallScoreOf results;
              StaticSuiteResults.cases := results |}
  | None => None
  end.

(** Line 224: one task per case; [fetched i] is what the [fetch] issued for
    case [i] answers.  A task catches whatever is thrown, so it fulfils. *)
Definition tasksOf (suite : TestSuite.t) (fetched : nat -> FetchOutcome)
    : list (Settled TestCaseResult.t) :=
  imap (fun i testCase => fulfilled (task testCase (fetched i))) (TestSuite.cases suite).

(** The report under a schedule of the runner; [None] when the schedule is
    not a complete execution or the tally throws. *)
Definition generateStaticResults (suite : TestSuite.t) (apiUrl now : string)
    (fetched : nat -> FetchOutcome) (sched : list nat) : option StaticSuiteResults.t :=
  match runWithConcurrency (tasksOf suite fetched) 10 sched with
  | Some taskResults => report suite apiUrl now taskResults
  | None => None
  end.

(** * Notions used in the statements *)

(** The position of a severity on the scale. *)
Definition rank (s : Severity) : Z :=
  match s with
  | none => 0 | mild => 1 | moderate => 2 | high => 3 | critical => 4
  end%Z.

(** The keys the script gives to the baseline, domain and legal flag checks. *)
Definition baseKeys : list string :=
  ["overall_severity"; "overall_imminence"; "confidence"].

Definition domainKeys : list string :=
  d ← [self; others; dependent_at_risk; victimisation];
  [domain_str d +:+ "_severity"; domain_str d +:+ "_confidence"].

Definition legalKeys : list string := ["duty_to_warn"; "mash_rating"; "dash_rating"].

(** An expected domain with its [min_imminence] removed. *)
Definition eraseMinImminence (e : ExpectedDomain.t) : ExpectedDomain.t :=
  {| ExpectedDomain.domain := ExpectedDomain.domain e;
     ExpectedDomain.min_severity := ExpectedDomain.min_severity e;
     ExpectedDomain.min_imminence := None;
     ExpectedDomain.min_confidence := ExpectedDomain.min_confidence e |}.

(** A case with its expected domains replaced. *)
Definition withExpectedDomains (testCase : TestCase.t)
    (domains : option (list ExpectedDomain.t)) : TestCase.t :=
  {| TestCase.case_id := TestCase.case_id testCase;
     TestCase.description := TestCase.description testCase;
     TestCase.conversation := TestCase.conversation testCase;
     TestCase.expected_overall_severity := TestCase.expected_overall_severity testCase;
     TestCase.acceptable_severities := TestCase.acceptable_severities testCase;
     TestCase.expected_overall_imminence := TestCase.expected_overall_imminence testCase;
     TestCase.acceptable_imminence := TestCase.acceptable_imminence testCase;
     TestCase.expected_min_confidence := TestCase.expected_min_confidence testCase;
     TestCase.rationale := TestCase.rationale testCase;
     TestCase.expected_domains := domains;
     TestCase.expected_legal_flags := TestCase.expected_legal_flags testCase |}.

Definition eraseMinImminenceOfCase (testCase : TestCase.t) : TestCase.t :=
  withExpectedDomains testCase
    (List.map eraseMinImminence <$> TestCase.expected_domains testCase).

(** The part of a result the scoring step computes. *)
Definition verdict (r : TestCaseResult.t) : Checks.t * bool * Q :=
  (TestCaseResult.checks r, TestCaseResult.passed r, TestCaseResult.score r).

(** An expected domain whose [min_confidence] is a zero is left without one. *)
Definition dropZeroMinConfidence (e : ExpectedDomain.t) : ExpectedDomain.t :=
  {| ExpectedDomain.domain := ExpectedDomain.domain e;
     ExpectedDomain.min_severity := ExpectedDomain.min_severity e;
     ExpectedDomain.min_imminence := ExpectedDomain.min_imminence e;
     ExpectedDomain.min_confidence :=
       match ExpectedDomain.min_confidence e with
       | Some q => if Qeq_bool q 0 then None else Some q
       | None => None
       end |}.

Definition dropZeroMinConfidenceOfCase (testCase : TestCase.t) : TestCase.t :=
  withExpectedDomains testCase
    (List.map dropZeroMinConfidence <$> TestCase.expected_domains testCase).

(** The checks stored by the failure path. *)
Definition failedChecks : Checks.t :=
  {| Checks.overall_severity := false;
     Checks.overall_imminence := false;
     Checks.confidence := false;
     Checks.domains := None;
     Checks.legal_flags := None |}.

(** The slots of an array that hold a result, in order. *)
Definition presentResults (taskResults : list (option (option TestCaseResult.t)))
    : list TestCaseResult.t :=
  omap (fun slot => slot ≫= id) taskResults.

(** The results of the tasks of a suite, in the order of its cases. *)
Definition caseResults (suite : TestSuite.t) (fetched : nat → FetchOutcome)
    : list TestCaseResult.t :=
  imap (fun i testCase => task testCase (fetched i)) (TestSuite.cases suite).






(** ** The scores in double precision *)












(** The runner's invariant and its progress measure. *)
Section RunnerInvariant.
Context {T : Type}.
Variable tasks : list (Settled T).

(** What holds of every state of an execution. *)
Record Inv (st : RunState T) : Prop := {
  inv_index : (index st ≤ length tasks)%nat;
  inv_nodup : NoDup (inFlight st);
  inv_claimed : ∀ i, i ∈ inFlight st → (i < index st)%nat;
  inv_written : ∀ i, (i < index st)%nat → i ∉ inFlight st →
                     ∃ t, tasks !! i = Some t ∧ results st !! i = Some (Some (slotOf t));
  inv_length : (length (results st) ≤ index st)%nat;
  inv_idle : None ∈ workers st → index st = length tasks
}.

(** The settlements still to come: the unclaimed tasks and those in flight. *)
Definition remaining (st : RunState T) : nat :=
  (length tasks - index st) + length (inFlight st).

End RunnerInvariant.

(** * Example data *)

(** The widening example: expected [moderate], acceptable [moderate; high]. *)
Definition wideningCase : TestCase.t :=
  {| TestCase.case_id := "widening";
     TestCase.description := "moderate, high also accepted";
     TestCase.conversation := [{| Message.role := "user"; Message.content := "hello" |}];
     TestCase.expected_overall_severity := moderate;
     TestCase.acceptable_severities := Some [moderate; high];
     TestCase.expected_overall_imminence := chronic;
     TestCase.acceptable_imminence := None;
     TestCase.expected_min_confidence := 0.6;
     TestCase.rationale := None;
     TestCase.expected_domains := None;
     TestCase.expected_legal_flags := None |}.

Definition payload (severity : Severity) (imminence : Imminence) (confidence : Q)
    (domains : list ApiDomain.t) (flags : option ApiLegalFlags.t) : ApiResult.t :=
  {| ApiResult.global :=
       {| ApiGlobal.overall_severity := severity;
          ApiGlobal.overall_imminence := imminence;
          ApiGlobal.primary_concerns := None |};
     ApiResult.confidence := confidence;
     ApiResult.domains := domains;
     ApiResult.legal_flags := flags |}.

(** The threshold example: the domain [self] with minimum severity [high]. *)
Definition selfAtLeastHigh : ExpectedDomain.t :=
  {| ExpectedDomain.domain := self;
     ExpectedDomain.min_severity := Some high;
     ExpectedDomain.min_imminence := None;
     ExpectedDomain.min_confidence := None |}.

Definition thresholdCase : TestCase.t :=
  {| TestCase.case_id := "threshold";
     TestCase.description := "self at least high";
     TestCase.conversation := [{| Message.role := "user"; Message.content := "hello" |}];
     TestCase.expected_overall_severity := high;
     TestCase.acceptable_severities := None;
     TestCase.expected_overall_imminence := urgent;
     TestCase.acceptable_imminence := None;
     TestCase.expected_min_confidence := 0.6;
     TestCase.rationale := None;
     TestCase.expected_domains := Some [selfAtLeastHigh];
     TestCase.expected_legal_flags := None |}.

Definition actualDomain (domain : RiskDomain) (severity : Severity) (confidence : Q)
    : ApiDomain.t :=
  {| ApiDomain.domain := domain;
     ApiDomain.severity := severity;
     ApiDomain.imminence := urgent;
     ApiDomain.confidence := confidence;
     ApiDomain.risk_features := None;
     ApiDomain.protective_factors := None |}.

(** A case that declares only [child_safeguarding_urgent], answered by a
    payload whose flag says the opposite. *)
Definition safeguardingCase : TestCase.t :=
  {| TestCase.case_id := "safeguarding";
     TestCase.description := "child safeguarding expected";
     TestCase.conversation := [{| Message.role := "user"; Message.content := "hello" |}];
     TestCase.expected_overall_severity := high;
     TestCase.acceptable_severities := None;
     TestCase.expected_overall_imminence := urgent;
     TestCase.acceptable_imminence := None;
     TestCase.expected_min_confidence := 0.6;
     TestCase.rationale := None;
     TestCase.expected_domains := None;
     TestCase.expected_legal_flags :=
       Some {| ExpectedLegalFlags.duty_to_warn := None;
               ExpectedLegalFlags.child_safeguarding_urgent := Some true;
               ExpectedLegalFlags.vulnerable_adult_safeguarding := None;
               ExpectedLegalFlags.mash_rating := None;
               ExpectedLegalFlags.dash_rating := None;
               ExpectedLegalFlags.animal_cruelty := None |} |}.

Definition safeguardingPayload : ApiResult.t :=
  payload high urgent 0.8 []
    (Some {| ApiLegalFlags.duty_to_warn := None;
             ApiLegalFlags.child_safeguarding_urgent :=
               Some {| PresentFlag.present := Some false |};
             ApiLegalFlags.vulnerable_adult_safeguarding := None;
             ApiLegalFlags.mash_rating := None;
             ApiLegalFlags.dash_rating := None;
             ApiLegalFlags.animal_cruelty := None |}).

Definition selfWithImminence (min_imminence : option Imminence) : ExpectedDomain.t :=
  {| ExpectedDomain.domain := self;
     ExpectedDomain.min_severity := Some high;
     ExpectedDomain.min_imminence := min_imminence;
     ExpectedDomain.min_confidence := Some 0.7%Q |}.

Definition selfWithConfidence (min_confidence : option Q) : ExpectedDomain.t :=
  {| ExpectedDomain.domain := self;
     ExpectedDomain.min_severity := None;
     ExpectedDomain.min_imminence := None;
     ExpectedDomain.min_confidence := min_confidence |}.

(** The end-to-end scenario: severity [high] expected, confidence at least 0.6. *)
Definition endToEndCase : TestCase.t :=
  {| TestCase.case_id := "end-to-end";
     TestCase.description := "high, no widening";
     TestCase.conversation := [{| Message.role := "user"; Message.content := "hello" |}];
     TestCase.expected_overall_severity := high;
     TestCase.acceptable_severities := None;
     TestCase.expected_overall_imminence := urgent;
     TestCase.acceptable_imminence := None;
     TestCase.expected_min_confidence := 0.6;
     TestCase.rationale := None;
     TestCase.expected_domains := None;
     TestCase.expected_legal_flags := None |}.

(** A successful response carrying a payload. *)
Definition okResponse (result : ApiResult.t) : FetchOutcome :=
  fetch_resolves {| Response.ok := true; Response.status := 200;
                    Response.text := inr ""; Response.json := inr result |}.

(** A response with status 500 and a body. *)
Definition serverError : FetchOutcome :=
  fetch_resolves {| Response.ok := false; Response.status := 500;
                    Response.text := inr "Internal Server Error";
                    Response.json := inl (ErrorObject "Unexpected token I in JSON") |}.

(** A response with status 502 whose body cannot be read: [response.text()]
    rejects with an [Error] without message. *)
Definition unreadableServerError : FetchOutcome :=
  fetch_resolves {| Response.ok := false; Response.status := 502;
                    Response.text := inl (ErrorObject EmptyString);
                    Response.json := inl (ErrorObject EmptyString) |}.

(** Three tasks, two workers; the second task settles first. *)
Definition threeTasks : list (Settled nat) :=
  [fulfilled 10%nat; fulfilled 20%nat; rejected (ErrorObject "boom")].

Definition twoCaseSuite : TestSuite.t :=
  {| TestSuite.test_set_id := "core";
     TestSuite.version := "1.0.0";
     TestSuite.description := "two cases";
     TestSuite.cases := [endToEndCase; thresholdCase] |}.

Definition twoCaseFetched (i : nat) : FetchOutcome :=
  match i with
  | O => okResponse (payload high urgent 0.8 [] None)
  | _ => serverError
  end.

(** Three cases scoring 100, 0 and 50. *)
Definition threeCaseSuite : TestSuite.t :=
  {| TestSuite.test_set_id := "core";
     TestSuite.version := "1.0.0";
     TestSuite.description := "three cases";
     TestSuite.cases := [endToEndCase; endToEndCase; thresholdCase] |}.

Definition threeCaseFetched (i : nat) : FetchOutcome :=
  match i with
  | 0%nat => okResponse (payload high urgent 0.8 [] None)
  | 1%nat => serverError
  | _ => okResponse (payload high urgent 0.5 [actualDomain self moderate 0.9] None)
  end.




(** * Further parts of the script *)


(** A case with its expected legal flags replaced. *)
Definition withLegalFlags (testCase : TestCase.t)
    (flags : option ExpectedLegalFlags.t) : TestCase.t :=
  {| TestCase.case_id := TestCase.case_id testCase;
     TestCase.description := TestCase.description testCase;
     TestCase.conversation := TestCase.conversation testCase;
     TestCase.expected_overall_severity := TestCase.expected_overall_severity testCase;
     TestCase.acceptable_severities := TestCase.acceptable_severities testCase;
     TestCase.expected_overall_imminence := TestCase.expected_overall_imminence testCase;
     TestCase.acceptable_imminence := TestCase.acceptable_imminence testCase;
     TestCase.expected_min_confidence := TestCase.expected_min_confidence testCase;
     TestCase.rationale := TestCase.rationale testCase;
     TestCase.expected_domains := TestCase.expected_domains testCase;
     TestCase.expected_legal_flags := flags |}.

(** Expected legal flags that declare [duty_to_warn] only. *)
Definition onlyDutyToWarn (b : bool) : ExpectedLegalFlags.t :=
  {| ExpectedLegalFlags.duty_to_warn := Some b;
     ExpectedLegalFlags.child_safeguarding_urgent := None;
     ExpectedLegalFlags.vulnerable_adult_safeguarding := None;
     ExpectedLegalFlags.mash_rating := None;
     ExpectedLegalFlags.dash_rating := None;
     ExpectedLegalFlags.animal_cruelty := None |}.

(** The tasks whose settlement a schedule handles, in order: the task each
    named worker awaits when its turn comes. *)
Fixpoint settledTasks {T} (tasks : list (Settled T)) (sched : list nat) (st : RunState T)
    : list nat :=
  match sched with
  | [] => []
  | k :: sched' =>
      match workers st !! k, settle tasks st k with
      | Some (Some currentIndex), Some st' => currentIndex :: settledTasks tasks sched' st'
      | _, _ => []
      end
  end.

(** A suite without cases. *)
Definition emptySuite : TestSuite.t :=
  {| TestSuite.test_set_id := "empty";
     TestSuite.version := "1.0.0";
     TestSuite.description := "no cases";
     TestSuite.cases := [] |}.

(** ** Strings as sequences of UTF-16 code units

    Where the script looks inside a string (trimming, splitting, searching)
    a string is the list of its code units. *)

(** The code units of an ASCII literal. *)
Definition units (s : string) : list N :=
  Ascii.N_of_ascii <$> String.list_ascii_of_string s.

(** Truthiness of a string. *)
Definition truthy_units (s : list N) : bool :=
  match s with [] => false | _ :: _ => true end.

(** WhiteSpace and LineTerminator code units, the ones [trim] removes: TAB,
    LF, VT, FF, CR, SP, NBSP, U+1680, U+2000..U+200A, LS, PS, U+202F, U+205F,
    U+3000 and the byte order mark. *)
Definition isWhiteSpace (c : N) : bool :=
  ((9 <=? c) && (c <=? 13)
   || (c =? 32) || (c =? 160) || (c =? 5760)
   || (8192 <=? c) && (c <=? 8202)
   || (c =? 8232) || (c =? 8233) || (c =? 8239) || (c =? 8287)
   || (c =? 12288) || (c =? 65279))%N.

Fixpoint trimStart (s : list N) : list N :=
  match s with
  | c :: s' => if isWhiteSpace c then trimStart s' else s
  | [] => []
  end.

Definition trimEnd (s : list N) : list N := rev (trimStart (rev s)).

(** [String.prototype.trim]. *)
Definition trim (s : list N) : list N := trimEnd (trimStart s).

(** [s.split(sep)] for a separator of one code unit: the pieces between the
    separators, at least one piece. *)
Fixpoint split_on (sep : N) (s : list N) : list (list N) :=
  match s with
  | [] => [[]]
  | c :: s' =>
      if (c =? sep)%N then [] :: split_on sep s'
      else match split_on sep s' with
           | piece :: pieces => (c :: piece) :: pieces
           | [] => [[c]]
           end
  end.

(** [parts.join(sep)] for a separator of one code unit. *)
Fixpoint join_with (sep : N) (parts : list (list N)) : list N :=
  match parts with
  | [] => []
  | [piece] => piece
  | piece :: parts' => piece ++ sep :: join_with sep parts'
  end.

(** [s.startsWith(p)] and [s.endsWith(p)]. *)
Fixpoint startsWith (p s : list N) : bool :=
  match p, s with
  | [], _ => true
  | a :: p', b :: s' => (a =? b)%N && startsWith p' s'
  | _ :: _, [] => false
  end.

Definition endsWith (p s : list N) : bool := startsWith (rev p) (rev s).

(** [s.replace(p, r)] for a string pattern: the first occurrence of [p] is
    replaced. *)
Fixpoint replaceFirst (p r s : list N) : list N :=
  if startsWith p s then r ++ drop (length p) s
  else match s with
       | [] => []
       | c :: s' => c :: replaceFirst p r s'
       end.

(** ** The [.env] file (lines 20-35) *)

(** Lines 25-31: the body of the [forEach] over the lines. *)
Definition loadEnvLine (env : gmap (list N) (list N)) (line : list N)
    : gmap (list N) (list N) :=
  let trimmed := trim line in
  if truthy_units trimmed && negb (startsWith (units "#") trimmed) then
    match split_on 61 trimmed with
    | key :: valueParts =>
        if truthy_units key && (0 <? length valueParts)%nat
        then <[trim key := trim (join_with 61 valueParts)]> env
        else env
    | [] => env
    end
  else env.

(** Lines 21-35: the file read ([None] when reading throws) and its lines
    applied to the environment in order. *)
Definition loadEnv (envContent : option (list N)) (env : gmap (list N) (list N))
    : gmap (list N) (list N) :=
  match envContent with
  | Some content => fold_left loadEnvLine (split_on 10 content) env
  | None => env
  end.

(** ** The request of the classifier call (lines 182-197) *)

(** What [fetch] is called with; the body is the JSON text of
    [{ messages, config: {} }], kept here as its [messages]. *)
Module Request.
Record t := {
  url : list N;
  method : list N;
  headers : gmap (list N) (list N);
  messages : list Message.t
}.
End Request.

Definition requestOf (messages : list Message.t) (apiUrl : list N)
    (apiKey : option (list N)) : Request.t :=
  let headers : gmap (list N) (list N) :=
    <[units "Content-Type" := units "application/json"]> ∅ in
  let headers :=
    match apiKey with
    | Some key =>
        if truthy_units key
        then <[units "Authorization" := units "Bearer " ++ key]> headers
        else headers
    | None => headers
    end in
  {| Request.url := apiUrl ++ units "/v1/evaluate";
     Request.method := units "POST";
     Request.headers := headers;
     Request.messages := messages |}.

(** ** The entry point (lines 409-451) *)

(** Lines 413-414. *)
Definition apiUrlOf (env : gmap (list N) (list N)) : list N :=
  match env !! units "API_URL" with
  | Some url => if truthy_units url then url else units "http://localhost:8788"
  | None => units "http://localhost:8788"
  end.

Definition apiKeyOf (env : gmap (list N) (list N)) : option (list N) :=
  env !! units "API_KEY".

(** What [main] finds around it: the entries of the fixtures directory
    ([None] when it cannot be read), the paths that exist, and whether
    [generateStaticResults] resolves ([true]) or throws for a suite path, an
    endpoint and a key. *)
Module World.
Record t := {
  fixtures : option (list (list N));
  existsSync : list N → bool;
  generate : list N → list N → option (list N) → bool
}.
End World.

(** How the process ends: [main] returns, or the process exits with code 1. *)
Inductive Ended := returned | exited1.

(** [path.join(dir, name)] for a directory path and an entry name. *)
Definition joinPath (dir name : list N) : list N := dir ++ 47%N :: name.

(** Lines 425-428: the suites are generated one after the other; a throw
    ends the loop and, through line 448, the process. *)
Fixpoint generateEach (generate : list N → bool) (fixtures : list (list N))
    : list (list N) * Ended :=
  match fixtures with
  | [] => ([], returned)
  | fixture :: rest =>
      if generate fixture then
        let '(generated, ended) := generateEach generate rest in
        (fixture :: generated, ended)
      else ([fixture], exited1)
  end.

(** Lines 409-451: the suite paths [generateStaticResults] is called with, in
    order, and how the process ends.  [fixturesDir] is the resolved fixtures
    directory. *)
Definition main (args : list (list N)) (env : gmap (list N) (list N))
    (fixturesDir : list N) (world : World.t) : list (list N) * Ended :=
  let apiUrl := apiUrlOf env in
  let apiKey := apiKeyOf env in
  if includes args (units "--all") then
    match World.fixtures world with
    | Some entries =>
        let fixtures :=
          joinPath fixturesDir <$> List.filter (endsWith (units ".json")) entries in
        generateEach (fun fixture => World.generate world fixture apiUrl apiKey) fixtures
    | None => ([], exited1)
    end
  else
    let suitePath :=
      match args with
      | arg :: _ => if truthy_units arg then arg else units "fixtures/core-transparency.json"
      | [] => units "fixtures/core-transparency.json"
      end in
    if negb (World.existsSync world suitePath) then ([], exited1)
    else if World.generate world suitePath apiUrl apiKey then ([suitePath], returned)
    else ([suitePath], exited1).

(** ** The list of suites of the dashboard ([+page.server.ts]) *)

(** Line 392: the name of the file a report is written to. *)
Definition reportFileName (test_set_id : list N) : list N := test_set_id ++ units ".json".

(** [load]: the entries of the reports directory ([None] when it cannot be
    read) that end in [.json], each with its first [.json] removed. *)
Definition load (files : option (list (list N))) : list (list N) :=
  match files with
  | Some files =>
      replaceFirst (units ".json") [] <$> List.filter (endsWith (units ".json")) files
  | None => []
  end.

(** [p] occurs in [s]. *)
Definition occursIn (p s : list N) : Prop := ∃ a b, s = a ++ p ++ b.

(** A fixtures directory with three suites and a note; the second suite
    throws. *)
Definition batchWorld : World.t :=
  {| World.fixtures :=
       Some [units "a.json"; units "notes.txt"; units "b.json"; units "c.json"];
     World.existsSync := fun path => bool_decide (path = units "suites/one.json");
     World.generate := fun path _ _ => negb (endsWith (units "b.json") path) |}.

(** The occurrence test, computed. *)
Fixpoint occursb (p s : list N) : bool :=
  startsWith p s || match s with [] => false | _ :: s' => occursb p s' end.

(** A response with another body. *)
Definition withJson (response : Response.t) (json : Thrown + ApiResult.t) : Response.t :=
  {| Response.ok := Response.ok response;
     Response.status := Response.status response;
     Response.text := Response.text response;
     Response.json := json |}.

(** ** The dashboard pages *)

(** [toggleExpand] of the suite page: the set of expanded cases with
    [caseId] removed when it is there and added when it is not. *)
Definition toggleExpand (expandedCases : gset string) (caseId : string) : gset string :=
  if decide (caseId ∈ expandedCases) then expandedCases ∖ {[caseId]}
  else expandedCases ∪ {[caseId]}.

(** A suite as the list page holds it. *)
Module Suite.
Record t := {
  id : string;
  name : string;
  description : string;
  version : string;
  total_cases : nat;
  passed_cases : option nat;
  overall_score : option Q;
  generated_at : option string
}.
End Suite.

(** [suite.overall_score || 0]. *)
Definition scoreOrZero (suite : Suite.t) : Q :=
  match Suite.overall_score suite with
  | Some score => if truthy_num score then score else 0%Q
  | None => 0%Q
  end.

(** [loadedSuites.sort((a, b) => (b.overall_score || 0) - (a.overall_score || 0))].
    [Array.prototype.sort] is stable and the comparator is a consistent
    order, which determines the result; it is computed here by insertion. *)
Fixpoint insertSuite (suite : Suite.t) (sorted : list Suite.t) : list Suite.t :=
  match sorted with
  | [] => [suite]
  | other :: rest =>
      if Qle_bool (scoreOrZero other) (scoreOrZero suite)
      then suite :: other :: rest
      else other :: insertSuite suite rest
  end.

Definition sortSuites (suites : list Suite.t) : list Suite.t :=
  foldr insertSuite [] suites.

(** * Properties *)

(** ** Primitives *)

Lemma includes_elem_of {A} `{EqDecision A} (l : list A) (x : A) :
  includes l x = bool_decide (x ∈ l).
Proof.
  induction l as [|y l IH]; cbn [includes].
  - rewrite bool_decide_eq_false_2; [done|apply not_elem_of_nil].
  - destruct (decide (y = x)) as [->|Hne].
    + rewrite bool_decide_eq_true_2; [done|left].
    + rewrite IH. apply bool_decide_ext. rewrite elem_of_cons.
      split; [by right|]. by intros [->|?].
Qed.

Lemma severity_str_truthy (s : Severity) : truthy_str (severity_str s) = true.
Proof. by destruct s. Qed.

Lemma indexOf_severityLevels (s : Severity) : indexOf severityLevels s = rank s.
Proof. by destruct s. Qed.

(** ** The keys of the three check objects *)

(** Membership in a list of literals. *)
Ltac in_list := apply list_elem_of_In; vm_compute; tauto.

Lemma domainKeys_severity (d : RiskDomain) : domain_str d +:+ "_severity" ∈ domainKeys.
Proof. destruct d; in_list. Qed.

Lemma domainKeys_confidence (d : RiskDomain) : domain_str d +:+ "_confidence" ∈ domainKeys.
Proof. destruct d; in_list. Qed.

Lemma domainStep_keys result dc e k :
  is_Some (domainStep result dc e !! k) → is_Some (dc !! k) ∨ k ∈ domainKeys.
Proof.
  unfold domainStep.
  destruct (findDomain _ _) as [a|]; [|by left].
  destruct (ExpectedDomain.min_severity e) as [ms|],
           (ExpectedDomain.min_confidence e) as [mc|];
    rewrite ?severity_str_truthy; try destruct (truthy_num mc);
    intros H;
    repeat (apply lookup_insert_is_Some in H as [<-|[_ H]];
            [right; auto using domainKeys_severity, domainKeys_confidence|]);
    by left.
Qed.

Lemma fold_domainStep_keys result l dc k :
  is_Some (fold_left (domainStep result) l dc !! k) → is_Some (dc !! k) ∨ k ∈ domainKeys.
Proof.
  revert dc. induction l as [|e l IH]; simpl; intros dc H; [by left|].
  apply IH in H as [H|H]; [|by right].
  by apply domainStep_keys in H.
Qed.

Lemma domainChecksOf_keys testCase result k :
  is_Some (domainChecksOf testCase result !! k) → k ∈ domainKeys.
Proof.
  unfold domainChecksOf. destruct (TestCase.expected_domains testCase).
  - intros H. apply fold_domainStep_keys in H as [H|H]; [|done].
    rewrite lookup_empty in H. by destruct H.
  - rewrite lookup_empty. by intros [].
Qed.

Lemma legalFlagChecksOf_keys testCase result k :
  is_Some (legalFlagChecksOf testCase result !! k) → k ∈ legalKeys.
Proof.
  unfold legalFlagChecksOf, legalKeys.
  destruct (TestCase.expected_legal_flags testCase) as [f|];
    [|rewrite lookup_empty; by intros []].
  destruct (ExpectedLegalFlags.duty_to_warn f), (ExpectedLegalFlags.mash_rating f),
           (ExpectedLegalFlags.dash_rating f);
    rewrite ?lookup_insert_is_Some, ?lookup_empty; intros H;
    repeat match goal with
           | H : _ ∨ _ |- _ => destruct H as [H|H]
           | H : _ ∧ _ |- _ => destruct H as [_ H]
           | H : is_Some None |- _ => by destruct H
           end; subst; in_list.
Qed.

Lemma base_key_not_domain k : k ∈ baseKeys → k ∉ domainKeys.
Proof.
  intros Hk Hd. apply list_elem_of_In in Hk, Hd. revert Hd.
  vm_compute in Hk. vm_compute.
  intuition (subst; discriminate).
Qed.

Lemma base_key_not_legal k : k ∈ baseKeys → k ∉ legalKeys.
Proof.
  intros Hk Hd. apply list_elem_of_In in Hk, Hd. revert Hd.
  vm_compute in Hk. vm_compute.
  intuition (subst; discriminate).
Qed.

Lemma domain_key_not_legal k : k ∈ domainKeys → k ∉ legalKeys.
Proof.
  intros Hk Hd. apply list_elem_of_In in Hk, Hd. revert Hd.
  vm_compute in Hk. vm_compute.
  intuition (subst; discriminate).
Qed.

(** What [allChecks] holds under a key of the baseline and of the domain checks. *)
Lemma allChecksOf_base testCase result k :
  k ∈ baseKeys → allChecksOf testCase result !! k = baseChecks testCase result !! k.
Proof.
  intros Hk. unfold allChecksOf, spread.
  rewrite lookup_union_r.
  - rewrite lookup_union_r; [done|].
    apply eq_None_not_Some. intros H%domainChecksOf_keys. by eapply base_key_not_domain.
  - apply eq_None_not_Some. intros H%legalFlagChecksOf_keys. by eapply base_key_not_legal.
Qed.

Lemma allChecksOf_domain testCase result k :
  k ∈ domainKeys → allChecksOf testCase result !! k = domainChecksOf testCase result !! k.
Proof.
  intros Hk. unfold allChecksOf, spread.
  rewrite lookup_union_r.
  - destruct (domainChecksOf testCase result !! k) as [b|] eqn:E.
    + by apply lookup_union_Some_l.
    + rewrite lookup_union_r; [|done].
      apply eq_None_not_Some. intros [b Hb].
      assert (k ∈ baseKeys) as Hb'.
      { unfold baseChecks in Hb. unfold baseKeys.
        apply lookup_insert_Some in Hb as [[<- _]|[_ Hb]]; [in_list|].
        apply lookup_insert_Some in Hb as [[<- _]|[_ Hb]]; [in_list|].
        apply lookup_insert_Some in Hb as [[<- _]|[_ Hb]]; [in_list|].
        by rewrite lookup_empty in Hb. }
      by eapply base_key_not_domain.
  - apply eq_None_not_Some. intros H%legalFlagChecksOf_keys. by eapply domain_key_not_legal.
Qed.

(** ** Overall severity and imminence *)

Lemma baseChecks_overall_severity testCase result :
  baseChecks testCase result !! "overall_severity"
  = Some (includes (acceptableSeverities testCase)
                   (ApiGlobal.overall_severity (ApiResult.global result))).
Proof. unfold baseChecks. rewrite 2!lookup_insert_ne by done. apply lookup_insert_eq. Qed.

Lemma baseChecks_overall_imminence testCase result :
  baseChecks testCase result !! "overall_imminence"
  = Some (includes (acceptableImminence testCase)
                   (ApiGlobal.overall_imminence (ApiResult.global result))).
Proof. unfold baseChecks. rewrite lookup_insert_ne by done. apply lookup_insert_eq. Qed.

Lemma baseChecks_confidence testCase result :
  baseChecks testCase result !! "confidence"
  = Some (num_ge (ApiResult.confidence result) (TestCase.expected_min_confidence testCase)).
Proof. unfold baseChecks. apply lookup_insert_eq. Qed.

(** C6: the overall severity check of a case is true exactly when the actual
    overall severity belongs to the acceptable severities, which are the
    supplied list or else the single expected severity; the overall imminence
    check is the same rule over the acceptable imminence values.  This holds
    for the entry of the merged check object and for the field of the result. *)
Theorem overall_checks_are_membership (testCase : TestCase.t) (result : ApiResult.t) :
  let severity := ApiGlobal.overall_severity (ApiResult.global result) in
  let imminence := ApiGlobal.overall_imminence (ApiResult.global result) in
  acceptableSeverities testCase
    = default [TestCase.expected_overall_severity testCase]
              (TestCase.acceptable_severities testCase)
  ∧ acceptableImminence testCase
    = default [TestCase.expected_overall_imminence testCase]
              (TestCase.acceptable_imminence testCase)
  ∧ allChecksOf testCase result !! "overall_severity"
    = Some (bool_decide (severity ∈ acceptableSeverities testCase))
  ∧ allChecksOf testCase result !! "overall_imminence"
    = Some (bool_decide (imminence ∈ acceptableImminence testCase))
  ∧ Checks.overall_severity (TestCaseResult.checks (successResult testCase result))
    = bool_decide (severity ∈ acceptableSeverities testCase)
  ∧ Checks.overall_imminence (TestCaseResult.checks (successResult testCase result))
    = bool_decide (imminence ∈ acceptableImminence testCase).
Proof.
  cbn zeta. split; [reflexivity|]. split; [reflexivity|]. repeat split.
  - rewrite allChecksOf_base by in_list.
    by rewrite baseChecks_overall_severity, includes_elem_of.
  - rewrite allChecksOf_base by in_list.
    by rewrite baseChecks_overall_imminence, includes_elem_of.
  - cbn. rewrite lookup_total_alt, baseChecks_overall_severity. cbn.
    apply includes_elem_of.
  - cbn. rewrite lookup_total_alt, baseChecks_overall_imminence. cbn.
    apply includes_elem_of.
Qed.

Example widening_high_passes :
  allChecksOf wideningCase (payload high chronic 0.8 [] None) !! "overall_severity"
  = Some true.
Proof. vm_compute. reflexivity. Qed.

Example widening_critical_fails :
  allChecksOf wideningCase (payload critical chronic 0.8 [] None) !! "overall_severity"
  = Some false.
Proof. vm_compute. reflexivity. Qed.

(** ** Domain checks *)

Lemma severity_key_inj d1 d2 :
  domain_str d1 +:+ "_severity" = domain_str d2 +:+ "_severity" → d1 = d2.
Proof. destruct d1, d2; intros H; try reflexivity; discriminate H. Qed.

Lemma confidence_key_inj d1 d2 :
  domain_str d1 +:+ "_confidence" = domain_str d2 +:+ "_confidence" → d1 = d2.
Proof. destruct d1, d2; intros H; try reflexivity; discriminate H. Qed.

Lemma severity_key_not_confidence d1 d2 :
  domain_str d1 +:+ "_confidence" ≠ domain_str d2 +:+ "_severity".
Proof. destruct d1, d2; intros H; discriminate H. Qed.

Lemma findDomain_None result domain :
  findDomain result domain = None
  ↔ ∀ d, d ∈ ApiResult.domains result → ApiDomain.domain d ≠ domain.
Proof.
  unfold findDomain. split.
  - intros H d Hd%list_elem_of_In.
    pose proof (find_none _ _ H d Hd) as Hf. cbn in Hf.
    by apply bool_decide_eq_false in Hf.
  - intros H. induction (ApiResult.domains result) as [|d l IH]; [done|].
    cbn. rewrite bool_decide_eq_false_2.
    + apply IH. intros d' Hd'. apply H. by right.
    + apply H. left.
Qed.

(** The severity entry written by one step. *)
Lemma domainStep_severity result dc e a ms :
  findDomain result (ExpectedDomain.domain e) = Some a →
  ExpectedDomain.min_severity e = Some ms →
  domainStep result dc e !! (domain_str (ExpectedDomain.domain e) +:+ "_severity")
  = Some (bool_decide (rank ms ≤ rank (ApiDomain.severity a))%Z).
Proof.
  intros Hf Hs. unfold domainStep. rewrite Hf, Hs, severity_str_truthy.
  rewrite !indexOf_severityLevels.
  assert ((rank (ApiDomain.severity a) >=? rank ms)%Z
          = bool_decide (rank ms ≤ rank (ApiDomain.severity a))%Z) as ->.
  { destruct (bool_decide_reflect (rank ms ≤ rank (ApiDomain.severity a))%Z); lia. }
  destruct (ExpectedDomain.min_confidence e) as [mc|]; [destruct (truthy_num mc)|];
    rewrite ?(lookup_insert_ne _ _ _ _ (severity_key_not_confidence _ _));
    apply lookup_insert_eq.
Qed.

(** A step for another domain leaves the entries of this one alone. *)
Lemma domainStep_other result dc e d sfx :
  ExpectedDomain.domain e ≠ d →
  sfx = "_severity" ∨ sfx = "_confidence" →
  domainStep result dc e !! (domain_str d +:+ sfx) = dc !! (domain_str d +:+ sfx).
Proof.
  intros Hne Hsfx. unfold domainStep.
  destruct (findDomain _ _) as [a|]; [|done].
  assert (domain_str (ExpectedDomain.domain e) +:+ "_severity" ≠ domain_str d +:+ sfx) as H1.
  { destruct Hsfx as [-> | ->].
    - by intros ?%severity_key_inj.
    - intros H. symmetry in H. by apply severity_key_not_confidence in H. }
  assert (domain_str (ExpectedDomain.domain e) +:+ "_confidence" ≠ domain_str d +:+ sfx) as H2.
  { destruct Hsfx as [-> | ->].
    - apply severity_key_not_confidence.
    - by intros ?%confidence_key_inj. }
  destruct (ExpectedDomain.min_severity e) as [ms|],
           (ExpectedDomain.min_confidence e) as [mc|];
    rewrite ?severity_str_truthy; try destruct (truthy_num mc);
    by rewrite ?(lookup_insert_ne _ _ _ _ H2), ?(lookup_insert_ne _ _ _ _ H1).
Qed.

Lemma fold_domainStep_other result l dc d sfx :
  Forall (fun e => ExpectedDomain.domain e ≠ d) l →
  sfx = "_severity" ∨ sfx = "_confidence" →
  fold_left (domainStep result) l dc !! (domain_str d +:+ sfx) = dc !! (domain_str d +:+ sfx).
Proof.
  intros Hall Hsfx. revert dc.
  induction Hall as [|e l He Hall IH]; intros dc; [done|].
  cbn. rewrite IH. by apply domainStep_other.
Qed.

(** C7: an expected domain for which the payload has no domain with the same
    tag leaves the domain checks unchanged.  When the payload has one and a
    minimum severity is declared, the step writes the severity check of that
    domain, true exactly when the rank of the actual severity on the scale
    none < mild < moderate < high < critical is at least the rank of the
    declared minimum; this is the check of the case when no later expected
    domain has the same tag. *)
Theorem domain_severity_threshold (testCase : TestCase.t) (result : ApiResult.t)
    (domainChecks : gmap string bool) (e : ExpectedDomain.t) :
  (∀ s, indexOf severityLevels s = rank s)
  ∧ ((∀ d, d ∈ ApiResult.domains result → ApiDomain.domain d ≠ ExpectedDomain.domain e) →
     domainStep result domainChecks e = domainChecks)
  ∧ (∀ a ms,
       findDomain result (ExpectedDomain.domain e) = Some a →
       ExpectedDomain.min_severity e = Some ms →
       domainStep result domainChecks e
         !! (domain_str (ExpectedDomain.domain e) +:+ "_severity")
       = Some (bool_decide (rank ms ≤ rank (ApiDomain.severity a))%Z)
       ∧ ∀ before after : list ExpectedDomain.t,
           TestCase.expected_domains testCase = Some (before ++ e :: after)%list →
           Forall (fun e' => ExpectedDomain.domain e' ≠ ExpectedDomain.domain e) after →
           allChecksOf testCase result
             !! (domain_str (ExpectedDomain.domain e) +:+ "_severity")
           = Some (bool_decide (rank ms ≤ rank (ApiDomain.severity a))%Z)).
Proof.
  split; [apply indexOf_severityLevels|]. split.
  - intros Habs%findDomain_None. unfold domainStep. by rewrite Habs.
  - intros a ms Hf Hs. split; [by apply domainStep_severity|].
    intros before after Hexp Hafter.
    rewrite allChecksOf_domain by apply domainKeys_severity.
    unfold domainChecksOf. rewrite Hexp, fold_left_app. cbn.
    rewrite fold_domainStep_other by auto.
    by apply domainStep_severity.
Qed.

Example threshold_critical_passes :
  allChecksOf thresholdCase (payload high urgent 0.8 [actualDomain self critical 0.8] None)
    !! "self_severity" = Some true.
Proof. vm_compute. reflexivity. Qed.

Example threshold_high_passes :
  allChecksOf thresholdCase (payload high urgent 0.8 [actualDomain self high 0.8] None)
    !! "self_severity" = Some true.
Proof. vm_compute. reflexivity. Qed.

Example threshold_moderate_fails :
  allChecksOf thresholdCase (payload high urgent 0.8 [actualDomain self moderate 0.8] None)
    !! "self_severity" = Some false.
Proof. vm_compute. reflexivity. Qed.

Example threshold_absent_domain_no_check :
  keys (allChecksOf thresholdCase
          (payload high urgent 0.8 [actualDomain others critical 0.8] None))
  = ["overall_severity"; "overall_imminence"; "confidence"].
Proof. vm_compute. reflexivity. Qed.

Lemma domain_severity_threshold_witness :
  domainStep (payload high urgent 0.8 [actualDomain others critical 0.8] None) ∅
             selfAtLeastHigh = ∅
  ∧ domainStep (payload high urgent 0.8 [actualDomain self moderate 0.8] None) ∅
               selfAtLeastHigh !! "self_severity" = Some false
  ∧ allChecksOf thresholdCase
      (payload high urgent 0.8 [actualDomain self critical 0.8] None) !! "self_severity"
    = Some true.
Proof.
  split; [|split].
  - apply (domain_severity_threshold thresholdCase
             (payload high urgent 0.8 [actualDomain others critical 0.8] None) ∅
             selfAtLeastHigh).
    intros d Hd. apply list_elem_of_In in Hd. destruct Hd as [<-|[]]. discriminate.
  - destruct (domain_severity_threshold thresholdCase
                (payload high urgent 0.8 [actualDomain self moderate 0.8] None) ∅
                selfAtLeastHigh) as (_ & _ & H).
    destruct (H (actualDomain self moderate 0.8) high eq_refl eq_refl) as [H1 _].
    exact H1.
  - destruct (domain_severity_threshold thresholdCase
                (payload high urgent 0.8 [actualDomain self critical 0.8] None) ∅
                selfAtLeastHigh) as (_ & _ & H).
    destruct (H (actualDomain self critical 0.8) high eq_refl eq_refl) as [_ H2].
    apply (H2 [] [] eq_refl). constructor.
Defined.

(** ** Legal flag checks *)

(** The three flags the script compares: a declared expectation gives the
    check named after the flag, a strict equality on [.present] or [.level]. *)
Lemma legalFlagChecksOf_compared testCase result flags :
  TestCase.expected_legal_flags testCase = Some flags →
  legalFlagChecksOf testCase result !! "duty_to_warn"
  = (fun b => present_is (opt_member (ApiResult.legal_flags result)
                                     ApiLegalFlags.duty_to_warn) b)
    <$> ExpectedLegalFlags.duty_to_warn flags
  ∧ legalFlagChecksOf testCase result !! "mash_rating"
    = (fun m => level_is (opt_member (ApiResult.legal_flags result)
                                     ApiLegalFlags.mash_rating) (mash_str m))
      <$> ExpectedLegalFlags.mash_rating flags
  ∧ legalFlagChecksOf testCase result !! "dash_rating"
    = (fun m => level_is (opt_member (ApiResult.legal_flags result)
                                     ApiLegalFlags.dash_rating) (dash_str m))
      <$> ExpectedLegalFlags.dash_rating flags.
Proof.
  intros Hf. unfold legalFlagChecksOf. rewrite Hf.
  destruct (ExpectedLegalFlags.duty_to_warn flags), (ExpectedLegalFlags.mash_rating flags),
           (ExpectedLegalFlags.dash_rating flags); cbn;
    repeat split;
    repeat first [ rewrite lookup_insert_eq | rewrite lookup_insert_ne by done
                 | rewrite lookup_empty ]; reflexivity.
Qed.

(** C1: the checks of a case never have an entry for the declared flags
    [child_safeguarding_urgent], [vulnerable_adult_safeguarding] and
    [animal_cruelty]; a case that expects [child_safeguarding_urgent] to be
    true, answered by a payload where it is present as false, has no legal
    flag check at all, passes and scores 100. *)
Theorem safeguarding_flags_not_compared :
  (∀ testCase result,
     allChecksOf testCase result !! "child_safeguarding_urgent" = None
     ∧ allChecksOf testCase result !! "vulnerable_adult_safeguarding" = None
     ∧ allChecksOf testCase result !! "animal_cruelty" = None)
  ∧ legalFlagChecksOf safeguardingCase safeguardingPayload = ∅
  ∧ Checks.legal_flags
      (TestCaseResult.checks (successResult safeguardingCase safeguardingPayload)) = None
  ∧ TestCaseResult.passed (successResult safeguardingCase safeguardingPayload) = true
  ∧ TestCaseResult.score (successResult safeguardingCase safeguardingPayload) == 100.
Proof.
  split.
  - intros testCase result.
    assert (∀ k, k ∉ baseKeys → k ∉ domainKeys → k ∉ legalKeys →
                 allChecksOf testCase result !! k = None) as Hnone.
    { intros k Hb Hd Hl. unfold allChecksOf, spread.
      apply lookup_union_None. split.
      - apply eq_None_not_Some. by intros H%legalFlagChecksOf_keys.
      - apply lookup_union_None. split.
        + apply eq_None_not_Some. by intros H%domainChecksOf_keys.
        + apply eq_None_not_Some. intros [b Hk]. apply Hb.
          unfold baseChecks in Hk.
          repeat (apply lookup_insert_Some in Hk as [[<- _]|[_ Hk]]; [in_list|]).
          by rewrite lookup_empty in Hk. }
    repeat split; apply Hnone; intros H%list_elem_of_In; vm_compute in H;
      intuition discriminate.
  - repeat split; vm_compute; reflexivity.
Qed.

(** ** Declarations the checks do not read *)

Lemma domainStep_eraseMinImminence result dc e :
  domainStep result dc (eraseMinImminence e) = domainStep result dc e.
Proof. reflexivity. Qed.

Lemma fold_domainStep_map result (f : ExpectedDomain.t → ExpectedDomain.t) l dc :
  (∀ dc' e, domainStep result dc' (f e) = domainStep result dc' e) →
  fold_left (domainStep result) (List.map f l) dc = fold_left (domainStep result) l dc.
Proof.
  intros Hf. revert dc. induction l as [|e l IH]; intros dc; [done|].
  cbn. by rewrite Hf, IH.
Qed.

Lemma allChecksOf_withExpectedDomains testCase result (f : ExpectedDomain.t → ExpectedDomain.t) :
  (∀ dc e, domainStep result dc (f e) = domainStep result dc e) →
  allChecksOf (withExpectedDomains testCase (List.map f <$> TestCase.expected_domains testCase))
              result
  = allChecksOf testCase result.
Proof.
  intros Hf. unfold allChecksOf. f_equal. f_equal.
  unfold domainChecksOf. cbn.
  destruct (TestCase.expected_domains testCase) as [l|]; [|done].
  cbn. by apply fold_domainStep_map.
Qed.

Lemma verdict_withExpectedDomains testCase result (f : ExpectedDomain.t → ExpectedDomain.t) :
  (∀ dc e, domainStep result dc (f e) = domainStep result dc e) →
  verdict (successResult
             (withExpectedDomains testCase (List.map f <$> TestCase.expected_domains testCase))
             result)
  = verdict (successResult testCase result).
Proof.
  intros Hf.
  pose proof (allChecksOf_withExpectedDomains testCase result f Hf) as Hall.
  assert (domainChecksOf
            (withExpectedDomains testCase (List.map f <$> TestCase.expected_domains testCase))
            result
          = domainChecksOf testCase result) as Hdom.
  { unfold domainChecksOf. cbn.
    destruct (TestCase.expected_domains testCase) as [l|]; [|done].
    cbn. by apply fold_domainStep_map. }
  unfold verdict, successResult. cbn [TestCaseResult.checks TestCaseResult.passed
                                        TestCaseResult.score].
  unfold allChecksOf in Hall. rewrite Hall, Hdom. reflexivity.
Qed.

Lemma imminence_key_not_checked testCase result d :
  allChecksOf testCase result !! (domain_str d +:+ "_imminence") = None.
Proof.
  unfold allChecksOf, spread.
  apply lookup_union_None. split; [|apply lookup_union_None; split].
  - apply eq_None_not_Some. intros H%legalFlagChecksOf_keys%list_elem_of_In.
    destruct d; vm_compute in H; intuition discriminate.
  - apply eq_None_not_Some. intros H%domainChecksOf_keys%list_elem_of_In.
    destruct d; vm_compute in H; intuition discriminate.
  - unfold baseChecks.
    rewrite !lookup_insert_ne by (destruct d; discriminate). apply lookup_empty.
Qed.

(** C9: two cases that are the same once every [min_imminence] of their
    expected domains is removed get, for the same payload, the same check
    object, the same checks in the result, the same pass flag and the same
    score; no check named after a domain's imminence exists. *)
Theorem min_imminence_is_ignored (testCase1 testCase2 : TestCase.t) (result : ApiResult.t) :
  eraseMinImminenceOfCase testCase1 = eraseMinImminenceOfCase testCase2 →
  allChecksOf testCase1 result = allChecksOf testCase2 result
  ∧ verdict (successResult testCase1 result) = verdict (successResult testCase2 result)
  ∧ ∀ d, allChecksOf testCase1 result !! (domain_str d +:+ "_imminence") = None.
Proof.
  intros Heq. split; [|split].
  - rewrite <- (allChecksOf_withExpectedDomains testCase1 result eraseMinImminence)
      by apply domainStep_eraseMinImminence.
    rewrite <- (allChecksOf_withExpectedDomains testCase2 result eraseMinImminence)
      by apply domainStep_eraseMinImminence.
    fold (eraseMinImminenceOfCase testCase1). fold (eraseMinImminenceOfCase testCase2).
    by rewrite Heq.
  - rewrite <- (verdict_withExpectedDomains testCase1 result eraseMinImminence)
      by apply domainStep_eraseMinImminence.
    rewrite <- (verdict_withExpectedDomains testCase2 result eraseMinImminence)
      by apply domainStep_eraseMinImminence.
    fold (eraseMinImminenceOfCase testCase1). fold (eraseMinImminenceOfCase testCase2).
    by rewrite Heq.
  - intros d. apply imminence_key_not_checked.
Qed.

Lemma min_imminence_is_ignored_witness :
  verdict (successResult
             (withExpectedDomains thresholdCase (Some [selfWithImminence (Some emergency)]))
             (payload high urgent 0.8 [actualDomain self high 0.8] None))
  = verdict (successResult
               (withExpectedDomains thresholdCase (Some [selfWithImminence None]))
               (payload high urgent 0.8 [actualDomain self high 0.8] None)).
Proof.
  apply (min_imminence_is_ignored
           (withExpectedDomains thresholdCase (Some [selfWithImminence (Some emergency)]))
           (withExpectedDomains thresholdCase (Some [selfWithImminence None]))
           (payload high urgent 0.8 [actualDomain self high 0.8] None)).
  reflexivity.
Defined.

Lemma domainStep_dropZeroMinConfidence result dc e :
  domainStep result dc (dropZeroMinConfidence e) = domainStep result dc e.
Proof.
  unfold domainStep, dropZeroMinConfidence.
  cbn [ExpectedDomain.domain ExpectedDomain.min_severity ExpectedDomain.min_confidence].
  destruct (findDomain _ _) as [a|]; [|done].
  destruct (ExpectedDomain.min_confidence e) as [q|]; [|done].
  unfold truthy_num. destruct (Qeq_bool q 0) eqn:E; [done|]. by rewrite E.
Qed.

(** C10: a step for an expected domain whose declared minimum confidence is
    zero leaves the confidence entry of its domain as it was, and does what
    the step for the same expected domain without the declaration does; a
    case and the case with every such declaration removed have the same check
    object, checks, pass flag and score. *)
Theorem zero_min_confidence_is_ignored (testCase : TestCase.t) (result : ApiResult.t)
    (domainChecks : gmap string bool) (e : ExpectedDomain.t) :
  (∀ q, ExpectedDomain.min_confidence e = Some q → q == 0 →
        ExpectedDomain.min_confidence (dropZeroMinConfidence e) = None
        ∧ domainStep result domainChecks e
          = domainStep result domainChecks (dropZeroMinConfidence e)
        ∧ domainStep result domainChecks e
            !! (domain_str (ExpectedDomain.domain e) +:+ "_confidence")
          = domainChecks !! (domain_str (ExpectedDomain.domain e) +:+ "_confidence"))
  ∧ allChecksOf (dropZeroMinConfidenceOfCase testCase) result = allChecksOf testCase result
  ∧ verdict (successResult (dropZeroMinConfidenceOfCase testCase) result)
    = verdict (successResult testCase result).
Proof.
  split; [|split].
  - intros q Hq Hz. apply Qeq_bool_iff in Hz. split; [|split].
    + cbn. by rewrite Hq, Hz.
    + by rewrite domainStep_dropZeroMinConfidence.
    + unfold domainStep. rewrite Hq. unfold truthy_num. rewrite Hz. cbn.
      destruct (findDomain _ _) as [a|]; [|done].
      destruct (ExpectedDomain.min_severity e) as [ms|]; [|done].
      rewrite severity_str_truthy.
      apply lookup_insert_ne. intros H. symmetry in H.
      by apply severity_key_not_confidence in H.
  - apply allChecksOf_withExpectedDomains. intros. apply domainStep_dropZeroMinConfidence.
  - apply verdict_withExpectedDomains. intros. apply domainStep_dropZeroMinConfidence.
Qed.

Example zero_min_confidence_no_check :
  keys (allChecksOf (withExpectedDomains thresholdCase (Some [selfWithConfidence (Some 0%Q)]))
                    (payload high urgent 0.8 [actualDomain self high 0.8] None))
  = ["overall_severity"; "overall_imminence"; "confidence"].
Proof. vm_compute. reflexivity. Qed.

Example positive_min_confidence_checked :
  allChecksOf (withExpectedDomains thresholdCase (Some [selfWithConfidence (Some 0.9%Q)]))
              (payload high urgent 0.8 [actualDomain self high 0.8] None)
    !! "self_confidence" = Some false.
Proof. vm_compute. reflexivity. Qed.

Lemma zero_min_confidence_is_ignored_witness :
  domainStep (payload high urgent 0.8 [actualDomain self high 0.8] None) ∅
             (selfWithConfidence (Some 0%Q)) !! "self_confidence" = None.
Proof.
  destruct (zero_min_confidence_is_ignored thresholdCase
              (payload high urgent 0.8 [actualDomain self high 0.8] None) ∅
              (selfWithConfidence (Some 0%Q))) as [H _].
  destruct (H 0%Q eq_refl ltac:(reflexivity)) as (_ & _ & H3).
  exact H3.
Defined.

(** ** Score and pass flag *)


Lemma filter_true_length (vs : list bool) :
  (length (List.filter (fun v => v) vs) ≤ length vs)%nat
  ∧ (forallb (fun v => v) vs = true ↔ length (List.filter (fun v => v) vs) = length vs).
Proof.
  induction vs as [|[] vs [IH1 IH2]]; cbn; [split; [lia|done]| |].
  - split; [lia|]. rewrite IH2. split; lia.
  - split; [lia|]. split; [done|lia].
Qed.

Lemma totalChecksOf_size (m : gmap string bool) : totalChecksOf m = size m.
Proof. unfold totalChecksOf, keys. by rewrite length_fmap, length_map_to_list. Qed.

Lemma values_length (m : gmap string bool) : length (values m) = size m.
Proof. unfold values. by rewrite length_fmap, length_map_to_list. Qed.

Lemma allPassedOf_spec (m : gmap string bool) :
  allPassedOf m = true ↔ ∀ k b, m !! k = Some b → b = true.
Proof.
  unfold allPassedOf, values. rewrite forallb_forall. split.
  - intros H k b Hk. apply H. apply list_elem_of_In, list_elem_of_fmap.
    exists (k, b). split; [done|]. by apply elem_of_map_to_list.
  - intros H b [[k b'] [-> Hin]]%list_elem_of_In%list_elem_of_fmap.
    apply elem_of_map_to_list in Hin. by eapply H.
Qed.




(** ** The score in double precision *)


Lemma allChecksOf_keys testCase result k :
  is_Some (allChecksOf testCase result !! k) → k ∈ baseKeys ++ domainKeys ++ legalKeys.
Proof.
  unfold allChecksOf, spread. rewrite !elem_of_app.
  intros [b [H|[_ [H|[_ H]]%lookup_union_Some_raw]]%lookup_union_Some_raw].
  - right. right. eapply legalFlagChecksOf_keys. eauto.
  - right. left. eapply domainChecksOf_keys. eauto.
  - left. unfold baseChecks in H.
    repeat (apply lookup_insert_Some in H as [[<- _]|[_ H]]; [in_list|]).
    by rewrite lookup_empty in H.
Qed.

Lemma totalChecksOf_bounds testCase result :
  (3 ≤ totalChecksOf (allChecksOf testCase result) ≤ 14)%nat.
Proof.
  rewrite totalChecksOf_size. split.
  - assert (baseChecks testCase result ⊆ allChecksOf testCase result) as Hsub.
    { apply map_subseteq_spec. intros k b Hk.
      rewrite allChecksOf_base; [done|].
      unfold baseChecks in Hk.
      repeat (apply lookup_insert_Some in Hk as [[<- _]|[_ Hk]]; [in_list|]).
      by rewrite lookup_empty in Hk. }
    apply map_subseteq_size in Hsub.
    assert (size (baseChecks testCase result) = 3%nat) as E; [|lia].
    unfold baseChecks.
    rewrite !map_size_insert_None, map_size_empty; [done|..];
      repeat (rewrite lookup_insert_ne by done); apply lookup_empty.
  - rewrite <- (size_dom (D := gset string)).
    assert (dom (allChecksOf testCase result)
            ⊆ list_to_set (C := gset string) (baseKeys ++ domainKeys ++ legalKeys)) as Hsub.
    { intros k Hk. apply elem_of_dom in Hk. apply elem_of_list_to_set.
      by apply (allChecksOf_keys testCase result). }
    apply subseteq_size in Hsub. etrans; [exact Hsub|].
    vm_compute. lia.
Qed.


(** ** Score and pass flag of a result *)


Example end_to_end_passes :
  verdict (task endToEndCase (okResponse (payload high urgent 0.8 [] None)))
  = ({| Checks.overall_severity := true; Checks.overall_imminence := true;
        Checks.confidence := true; Checks.domains := None; Checks.legal_flags := None |},
     true, 300 # 3).
Proof. vm_compute. reflexivity. Qed.

Example end_to_end_low_confidence :
  verdict (task endToEndCase (okResponse (payload high urgent 0.4 [] None)))
  = ({| Checks.overall_severity := true; Checks.overall_imminence := true;
        Checks.confidence := false; Checks.domains := None; Checks.legal_flags := None |},
     false, 200 # 3).
Proof. vm_compute. reflexivity. Qed.


(** ** Arrays written by index *)

Lemma array_set_length {A} (a : list (option A)) i x :
  length (array_set a i x) = (length a `max` S i)%nat.
Proof.
  unfold array_set. destruct (decide (i < length a)%nat).
  - rewrite length_insert. lia.
  - rewrite !length_app, length_replicate. cbn. lia.
Qed.

Lemma array_set_lookup_eq {A} (a : list (option A)) i x :
  array_set a i x !! i = Some (Some x).
Proof.
  unfold array_set. destruct (decide (i < length a)%nat).
  - by apply list_lookup_insert_eq.
  - rewrite lookup_app_r by lia.
    rewrite lookup_app_r by (rewrite length_replicate; lia).
    rewrite length_replicate. by replace (i - length a - (i - length a))%nat with 0%nat by lia.
Qed.

Lemma array_set_lookup_written {A} (a : list (option A)) i x j y :
  j ≠ i → a !! j = Some (Some y) → array_set a i x !! j = Some (Some y).
Proof.
  intros Hne Hj. unfold array_set. destruct (decide (i < length a)%nat).
  - by rewrite list_lookup_insert_ne.
  - by apply lookup_app_l_Some.
Qed.

(** ** The runner: initial state *)

Section RunnerProperties.
Context {T : Type}.
Variable tasks : list (Settled T).

Lemma spawn_claims n i :
  (i + n ≤ length tasks)%nat →
  spawn tasks n i = ((i + n)%nat, Some <$> seq i n).
Proof.
  revert i. induction n as [|n IH]; intros i Hle; cbn.
  - by rewrite Nat.add_0_r.
  - unfold runNext. destruct (Nat.leb_spec (length tasks) i); [exfalso; lia|].
    rewrite IH by lia. cbn. f_equal. lia.
Qed.

Lemma start_state C :
  start tasks C
  = {| index := C `min` length tasks;
       results := [];
       workers := Some <$> seq 0 (C `min` length tasks) |}.
Proof. unfold start. rewrite spawn_claims by lia. done. Qed.

Lemma inFlight_start C : inFlight (start tasks C) = seq 0 (C `min` length tasks).
Proof.
  rewrite start_state. unfold inFlight. cbn.
  induction (seq 0 (C `min` length tasks)) as [|i l IH]; [done|].
  cbn. by rewrite IH.
Qed.

(** ** The runner: one settlement *)

Lemma settle_Some st k st' :
  settle tasks st k = Some st' →
  ∃ currentIndex t w1 w2,
    workers st = w1 ++ Some currentIndex :: w2
    ∧ length w1 = k
    ∧ tasks !! currentIndex = Some t
    ∧ st' = {| index := (runNext tasks (index st)).1;
               results := array_set (results st) currentIndex (slotOf t);
               workers := w1 ++ (runNext tasks (index st)).2 :: w2 |}.
Proof.
  unfold settle. intros H.
  destruct (workers st !! k) as [[currentIndex|]|] eqn:Hk; [|done..].
  destruct (tasks !! currentIndex) as [t|] eqn:Ht; [|done].
  apply list_elem_of_split_length in Hk as (w1 & w2 & Hw & ->).
  exists currentIndex, t, w1, w2. repeat split; [done..|].
  destruct (runNext tasks (index st)) as [index' w]. injection H as <-. cbn.
  f_equal. rewrite Hw.
  replace (length w1) with (length w1 + 0)%nat by lia.
  by rewrite insert_app_r.
Qed.

Lemma inFlight_middle_Some (w1 w2 : list (option nat)) i :
  omap id (w1 ++ Some i :: w2) = omap id w1 ++ i :: omap id w2.
Proof. by rewrite omap_app. Qed.

Lemma inFlight_middle_None (w1 w2 : list (option nat)) :
  omap id (w1 ++ None :: w2) = omap id w1 ++ omap id w2.
Proof. by rewrite omap_app. Qed.

Lemma Inv_start C : Inv tasks (start tasks C).
Proof.
  split.
  - rewrite start_state. cbn. lia.
  - rewrite inFlight_start. apply NoDup_seq.
  - intros i. rewrite inFlight_start, start_state. cbn.
    rewrite elem_of_seq. lia.
  - intros i Hi Hn. exfalso. apply Hn. rewrite inFlight_start.
    rewrite start_state in Hi. cbn in Hi. apply elem_of_seq. lia.
  - rewrite start_state. cbn. lia.
  - rewrite start_state. cbn. intros (i & Hi & _)%list_elem_of_fmap. done.
Qed.

Lemma Inv_settle st k st' : Inv tasks st → settle tasks st k = Some st' → Inv tasks st'.
Proof.
  intros [Hidx Hnd Hcl Hwr Hlen Hidle]
         (cur & t & w1 & w2 & Hw & _ & Ht & ->)%settle_Some.
  unfold inFlight in *. rewrite Hw in *. clear Hw.
  rewrite inFlight_middle_Some in *.
  set (f1 := omap id w1) in *. set (f2 := omap id w2) in *.
  apply NoDup_app in Hnd as (Hnd1 & Hdisj & [Hcur2 Hnd2]%NoDup_cons).
  assert (cur ∉ f1) as Hcur1.
  { intros Hin. apply (Hdisj _ Hin). left. }
  assert (cur < index st)%nat as Hcur.
  { apply Hcl. rewrite elem_of_app, elem_of_cons. auto. }
  assert (NoDup (f1 ++ f2)) as Hnd12.
  { apply NoDup_app. repeat split; [done| |done].
    intros x Hx1 Hx2. apply (Hdisj _ Hx1). by right. }
  assert (∀ i, i ≠ cur → i ∉ f1 ++ f2 → (i < index st)%nat →
               ∃ t', tasks !! i = Some t'
                     ∧ array_set (results st) cur (slotOf t) !! i = Some (Some (slotOf t')))
    as Hold.
  { intros i Hne Hni Hlt.
    destruct (Hwr i Hlt) as (t' & Ht' & Hr).
    - rewrite elem_of_app, elem_of_cons. rewrite elem_of_app in Hni. tauto.
    - exists t'. split; [done|]. by apply array_set_lookup_written. }
  unfold runNext. destruct (Nat.leb_spec (length tasks) (index st)) as [Hge|Hlt]; cbn.
  - (* the queue is exhausted: the worker returns *)
    split; cbn [index results workers]; unfold inFlight; cbn [index results workers];
      rewrite ?inFlight_middle_None; fold f1 f2.
    + done.
    + done.
    + intros i Hi. apply Hcl. rewrite elem_of_app, elem_of_cons.
      rewrite elem_of_app in Hi. tauto.
    + intros i Hlt Hni. destruct (decide (i = cur)) as [->|Hne].
      * exists t. split; [done|]. apply array_set_lookup_eq.
      * by apply Hold.
    + rewrite array_set_length. lia.
    + intros _. lia.
  - (* the next index is claimed *)
    assert (index st ∉ f1 ++ f2) as Hfresh.
    { intros Hin. assert (index st < index st)%nat; [|lia].
      apply Hcl. rewrite elem_of_app, elem_of_cons. rewrite elem_of_app in Hin. tauto. }
    split; cbn [index results workers]; unfold inFlight; cbn [index results workers];
      rewrite ?inFlight_middle_Some; fold f1 f2.
    + lia.
    + apply NoDup_app. repeat split; [done| |].
      * intros x Hx1 [->|Hx2]%elem_of_cons.
        -- apply Hfresh. apply elem_of_app. auto.
        -- apply (Hdisj _ Hx1). by right.
      * apply NoDup_cons. split; [|done].
        intros Hin. apply Hfresh. apply elem_of_app. auto.
    + intros i [Hi|[->|Hi]%elem_of_cons]%elem_of_app; [|lia|].
      * assert (i < index st)%nat; [|lia].
        apply Hcl. rewrite elem_of_app. auto.
      * assert (i < index st)%nat; [|lia].
        apply Hcl. rewrite elem_of_app, elem_of_cons. auto.
    + intros i Hlt' Hni. rewrite elem_of_app, elem_of_cons in Hni.
      destruct (decide (i = cur)) as [->|Hne].
      * exists t. split; [done|]. apply array_set_lookup_eq.
      * apply Hold; [done| |].
        -- rewrite elem_of_app. tauto.
        -- assert (i ≠ index st) by tauto. lia.
    + rewrite array_set_length. lia.
    + intros Hin. exfalso.
      assert (index st = length tasks); [|lia].
      apply Hidle. rewrite elem_of_app, elem_of_cons.
      rewrite elem_of_app, elem_of_cons in Hin.
      destruct Hin as [?|[?|?]]; [auto|done|auto].
Qed.

(** ** The runner: executions *)

Lemma run_app sched1 sched2 st :
  run tasks (sched1 ++ sched2) st
  = match run tasks sched1 st with
    | Some st' => run tasks sched2 st'
    | None => None
    end.
Proof.
  revert st. induction sched1 as [|k sched1 IH]; intros st; cbn; [done|].
  destruct (settle tasks st k); [apply IH|done].
Qed.

Lemma Inv_run sched st st' : Inv tasks st → run tasks sched st = Some st' → Inv tasks st'.
Proof.
  revert st. induction sched as [|k sched IH]; intros st Hinv; cbn.
  - by intros [= <-].
  - destruct (settle tasks st k) as [st1|] eqn:Hs; [|done].
    apply IH. by eapply Inv_settle.
Qed.

Lemma settle_remaining st k st' :
  Inv tasks st → settle tasks st k = Some st' → S (remaining tasks st') = remaining tasks st.
Proof.
  intros Hinv (cur & t & w1 & w2 & Hw & _ & Ht & ->)%settle_Some.
  pose proof (inv_index _ _ Hinv) as Hidx.
  unfold remaining, inFlight. rewrite Hw. cbn [index results workers].
  unfold runNext. destruct (Nat.leb_spec (length tasks) (index st)); cbn [fst snd].
  - rewrite inFlight_middle_None, inFlight_middle_Some.
    rewrite !length_app. cbn. lia.
  - rewrite !inFlight_middle_Some. rewrite !length_app. cbn. lia.
Qed.

Lemma run_remaining sched st st' :
  Inv tasks st → run tasks sched st = Some st' →
  (remaining tasks st' + length sched)%nat = remaining tasks st.
Proof.
  revert st. induction sched as [|k sched IH]; intros st Hinv; cbn.
  - intros [= <-]. lia.
  - destruct (settle tasks st k) as [st1|] eqn:Hs; [|done].
    intros Hrun. pose proof (settle_remaining _ _ _ Hinv Hs).
    pose proof (IH st1 (Inv_settle _ _ _ Hinv Hs) Hrun). lia.
Qed.

Lemma remaining_start C : remaining tasks (start tasks C) = length tasks.
Proof.
  unfold remaining. rewrite inFlight_start, length_seq, start_state. cbn. lia.
Qed.

Lemma settle_workers_length st k st' :
  settle tasks st k = Some st' → length (workers st') = length (workers st).
Proof.
  intros (cur & t & w1 & w2 & Hw & _ & Ht & ->)%settle_Some.
  rewrite Hw. cbn. by rewrite !length_app.
Qed.

Lemma run_workers_length sched st st' :
  run tasks sched st = Some st' → length (workers st') = length (workers st).
Proof.
  revert st. induction sched as [|k sched IH]; intros st; cbn.
  - by intros [= <-].
  - destruct (settle tasks st k) as [st1|] eqn:Hs; [|done].
    intros Hrun. rewrite (IH _ Hrun). by eapply settle_workers_length.
Qed.

Lemma inFlight_length (st : RunState T) : (length (inFlight st) ≤ length (workers st))%nat.
Proof.
  unfold inFlight. induction (workers st) as [|[i|] l IH]; cbn; lia.
Qed.

Lemma allDone_inFlight (st : RunState T) : allDone st = true ↔ inFlight st = [].
Proof.
  unfold allDone, inFlight. induction (workers st) as [|[i|] l IH]; cbn; [done|done|].
  apply IH.
Qed.

Lemma allDone_idle (st : RunState T) : allDone st = true → workers st ≠ [] → None ∈ workers st.
Proof.
  unfold allDone. destruct (workers st) as [|[i|] l]; cbn; [done|done|].
  intros _ _. left.
Qed.

(** A state with a task in flight has a next settlement. *)
Lemma settle_progress st :
  Inv tasks st → allDone st = false → ∃ k st', settle tasks st k = Some st'.
Proof.
  intros Hinv Hnot.
  assert (∃ i, i ∈ inFlight st) as [i Hi].
  { destruct (inFlight st) as [|i l] eqn:E.
    - apply allDone_inFlight in E. congruence.
    - exists i. left. }
  pose proof (inv_claimed _ _ Hinv i Hi) as Hlt.
  pose proof (inv_index _ _ Hinv) as Hidx.
  unfold inFlight in Hi. apply list_elem_of_omap in Hi as (w & Hw & Hwi).
  destruct w as [j|]; [|done]. cbn in Hwi. injection Hwi as ->.
  apply list_elem_of_lookup in Hw as [k Hk].
  destruct (lookup_lt_is_Some_2 tasks i ltac:(lia)) as [t Ht].
  exists k. unfold settle. rewrite Hk, Ht.
  destruct (runNext tasks (index st)). eauto.
Qed.

(** Every execution extends to one in which all workers have returned. *)
Lemma run_completes st :
  Inv tasks st → ∃ sched st', run tasks sched st = Some st' ∧ allDone st' = true.
Proof.
  remember (remaining tasks st) as n eqn:Hn. revert st Hn.
  induction n as [|n IH]; intros st Hn Hinv.
  - exists [], st. split; [done|].
    apply allDone_inFlight. unfold remaining in Hn.
    destruct (inFlight st); [done|cbn in Hn; lia].
  - destruct (allDone st) eqn:Hd.
    + by exists [], st.
    + destruct (settle_progress st Hinv Hd) as (k & st1 & Hs).
      pose proof (settle_remaining _ _ _ Hinv Hs) as Hr.
      destruct (IH st1 ltac:(lia) (Inv_settle _ _ _ Hinv Hs)) as (sched & st' & Hrun & Hdone).
      exists (k :: sched), st'. cbn. by rewrite Hs.
Qed.

(** The array of a state in which every task was claimed and none is in
    flight. *)
Lemma results_final st :
  Inv tasks st → inFlight st = [] → index st = length tasks →
  results st = (fun t => Some (slotOf t)) <$> tasks.
Proof.
  intros Hinv Hnone Hidx. apply list_eq. intros i.
  rewrite list_lookup_fmap.
  destruct (decide (i < length tasks)%nat) as [Hlt|Hge].
  - destruct (inv_written _ _ Hinv i) as (t & Ht & Hr); [lia| |].
    + rewrite Hnone. apply not_elem_of_nil.
    + by rewrite Hr, Ht.
  - pose proof (inv_length _ _ Hinv).
    rewrite (lookup_ge_None_2 (results st)) by lia.
    by rewrite (lookup_ge_None_2 tasks) by lia.
Qed.

Lemma index_final C sched st :
  (1 ≤ C)%nat → run tasks sched (start tasks C) = Some st → allDone st = true →
  index st = length tasks.
Proof.
  intros HC Hrun Hdone.
  pose proof (Inv_run _ _ _ (Inv_start C) Hrun) as Hinv.
  destruct (decide (workers st = [])) as [Hnil|Hne].
  - pose proof (run_workers_length _ _ _ Hrun) as Hlen.
    rewrite Hnil, start_state in Hlen. cbn in Hlen.
    rewrite length_fmap, length_seq in Hlen.
    pose proof (inv_index _ _ Hinv). lia.
  - by apply (inv_idle _ _ Hinv), allDone_idle.
Qed.

Lemma runWithConcurrency_Some C sched res :
  runWithConcurrency tasks C sched = Some res ↔
  ∃ st, run tasks sched (start tasks C) = Some st ∧ allDone st = true ∧ res = results st.
Proof.
  unfold runWithConcurrency. split.
  - destruct (run tasks sched (start tasks C)) as [st|]; [|done].
    destruct (allDone st) eqn:Hd; [|done]. intros [= <-]. eauto.
  - intros (st & -> & -> & ->). done.
Qed.

End RunnerProperties.

(** ** The report *)

Lemma tally_Some taskResults passed failed acc passed' failed' results :
  tally taskResults passed failed acc = Some (passed', failed', results) →
  results = acc ++ presentResults taskResults
  ∧ passed' = (passed + length (List.filter TestCaseResult.passed
                                            (presentResults taskResults)))%nat
  ∧ failed' = (failed + length (List.filter (fun r => negb (TestCaseResult.passed r))
                                            (presentResults taskResults)))%nat.
Proof.
  revert passed failed acc.
  induction taskResults as [|[[r|]|] l IH]; intros passed failed acc; cbn.
  - intros [= <- <- <-]. cbn. rewrite app_nil_r. repeat split; lia.
  - change (presentResults (Some (Some r) :: l)) with (r :: presentResults l).
    cbn [List.filter].
    destruct (TestCaseResult.passed r) eqn:Hp; intros H;
      apply IH in H as (Hres & Hp' & Hf'); rewrite Hres, Hp', Hf', <- app_assoc;
      unfold presentResults; cbn [negb length]; repeat split; lia.
  - done.
  - apply IH.
Qed.

Lemma tally_fulfilled (rs : list TestCaseResult.t) passed failed acc :
  ∃ passed' failed',
    tally ((fun r => Some (Some r)) <$> rs) passed failed acc
    = Some (passed', failed', acc ++ rs).
Proof.
  revert passed failed acc. induction rs as [|r rs IH]; intros passed failed acc; cbn.
  - rewrite app_nil_r. eauto.
  - destruct (TestCaseResult.passed r).
    + destruct (IH (S passed) failed (acc ++ [r])) as (p & f & ->).
      rewrite <- app_assoc. eauto.
    + destruct (IH passed (S failed) (acc ++ [r])) as (p & f & ->).
      rewrite <- app_assoc. eauto.
Qed.

Lemma report_Some suite apiUrl now taskResults rep :
  report suite apiUrl now taskResults = Some rep →
  StaticSuiteResults.cases rep = presentResults taskResults
  ∧ StaticSuiteResults.overall_score rep = overallScoreOf (StaticSuiteResults.cases rep)
  ∧ StaticSuiteResults.passed_cases rep
    = length (List.filter TestCaseResult.passed (StaticSuiteResults.cases rep))
  ∧ StaticSuiteResults.failed_cases rep
    = length (List.filter (fun r => negb (TestCaseResult.passed r))
                          (StaticSuiteResults.cases rep))
  ∧ StaticSuiteResults.total_cases rep = length (TestSuite.cases suite).
Proof.
  unfold report.
  destruct (tally taskResults 0 0 []) as [[[passed failed] results]|] eqn:Ht; [|done].
  intros [= <-]. cbn. apply tally_Some in Ht as (-> & -> & ->). done.
Qed.

Lemma tasksOf_slots suite fetched :
  (fun t => Some (slotOf t)) <$> tasksOf suite fetched
  = (fun r => Some (Some r)) <$> caseResults suite fetched.
Proof.
  unfold tasksOf, caseResults. rewrite !fmap_imap. done.
Qed.

Lemma presentResults_fulfilled (rs : list TestCaseResult.t) :
  presentResults ((fun r => Some (Some r)) <$> rs) = rs.
Proof. induction rs as [|r rs IH]; cbn; [done|]. by f_equal. Qed.

Lemma caseResults_case_id suite fetched :
  TestCaseResult.case_id <$> caseResults suite fetched
  = TestCase.case_id <$> TestSuite.cases suite.
Proof.
  unfold caseResults. rewrite fmap_imap.
  apply list_eq. intros i. rewrite list_lookup_imap, list_lookup_fmap.
  destruct (TestSuite.cases suite !! i) as [testCase|]; [|done].
  cbn. unfold task. by destruct (callNopeAPI (fetched i)).
Qed.

(** A complete execution of the run of a suite gives the report of the
    results of its cases, in their order. *)
Lemma generateStaticResults_Some suite apiUrl now fetched sched rep :
  generateStaticResults suite apiUrl now fetched sched = Some rep →
  StaticSuiteResults.cases rep = caseResults suite fetched.
Proof.
  unfold generateStaticResults.
  destruct (runWithConcurrency _ _ _) as [res|] eqn:Hrun; [|done].
  apply runWithConcurrency_Some in Hrun as (st & Hrun & Hdone & ->).
  pose proof (Inv_run _ _ _ _ (Inv_start _ 10) Hrun) as Hinv.
  rewrite (results_final _ st Hinv).
  - rewrite tasksOf_slots. intros (-> & _)%report_Some.
    apply presentResults_fulfilled.
  - by apply allDone_inFlight.
  - eapply index_final; [|done..]. lia.
Qed.

Lemma generateStaticResults_completes suite apiUrl now fetched sched st :
  run (tasksOf suite fetched) sched (start (tasksOf suite fetched) 10) = Some st →
  ∃ sched' rep, generateStaticResults suite apiUrl now fetched (sched ++ sched') = Some rep.
Proof.
  intros Hrun.
  pose proof (Inv_run _ _ _ _ (Inv_start _ 10) Hrun) as Hinv.
  destruct (run_completes _ st Hinv) as (sched' & st' & Hrun' & Hdone).
  exists sched'.
  assert (run (tasksOf suite fetched) (sched ++ sched') (start (tasksOf suite fetched) 10)
          = Some st') as Hall.
  { by rewrite run_app, Hrun. }
  pose proof (Inv_run _ _ _ _ (Inv_start _ 10) Hall) as Hinv'.
  unfold generateStaticResults, runWithConcurrency. rewrite Hall, Hdone.
  rewrite (results_final _ st' Hinv').
  - rewrite tasksOf_slots. unfold report.
    destruct (tally_fulfilled (caseResults suite fetched) 0 0 []) as (p & f & ->). eauto.
  - by apply allDone_inFlight.
  - eapply index_final; [|done..]. lia.
Qed.

(** ** Index fidelity *)

(** C4: for a runner with at least one worker, every execution settles at
    most one task per task submitted, can be continued until all workers have
    returned, and has returned exactly when as many settlements happened as
    there are tasks.  The array returned then has the length of the task list
    and at each index the value task [i] fulfilled with (the placeholder when
    it rejected), whatever the order of the settlements.  The report of a
    suite lists the results of its cases in the order of the suite. *)
Theorem runner_index_fidelity {T : Type} (tasks : list (Settled T)) (maxConcurrency : nat)
    (suite : TestSuite.t) (apiUrl now : string) (fetched : nat → FetchOutcome) :
  (1 ≤ maxConcurrency)%nat →
  (∀ sched st,
     run tasks sched (start tasks maxConcurrency) = Some st →
     (length sched ≤ length tasks)%nat
     ∧ (allDone st = true ↔ length sched = length tasks)
     ∧ ∃ sched' res, runWithConcurrency tasks maxConcurrency (sched ++ sched') = Some res)
  ∧ (∀ sched res,
       runWithConcurrency tasks maxConcurrency sched = Some res →
       length res = length tasks
       ∧ (∀ i value, tasks !! i = Some (fulfilled value) → res !! i = Some (Some (Some value)))
       ∧ (∀ i error, tasks !! i = Some (rejected error) → res !! i = Some (Some None)))
  ∧ (∀ sched rep,
       generateStaticResults suite apiUrl now fetched sched = Some rep →
       StaticSuiteResults.cases rep
       = imap (fun i testCase => task testCase (fetched i)) (TestSuite.cases suite)
       ∧ TestCaseResult.case_id <$> StaticSuiteResults.cases rep
         = TestCase.case_id <$> TestSuite.cases suite)
  ∧ ∃ sched rep, generateStaticResults suite apiUrl now fetched sched = Some rep.
Proof.
  intros HC. split; [|split; [|split]].
  - intros sched st Hrun.
    pose proof (Inv_run _ _ _ _ (Inv_start tasks maxConcurrency) Hrun) as Hinv.
    pose proof (run_remaining _ _ _ _ (Inv_start tasks maxConcurrency) Hrun) as Hrem.
    rewrite remaining_start in Hrem.
    split; [lia|]. split.
    + split.
      * intros Hdone.
        pose proof (index_final _ _ _ _ HC Hrun Hdone) as Hidx.
        apply allDone_inFlight in Hdone.
        unfold remaining in Hrem. rewrite Hdone, Hidx in Hrem. cbn in Hrem. lia.
      * intros Hlen. apply allDone_inFlight.
        unfold remaining in Hrem. destruct (inFlight st); [done|cbn in Hrem; lia].
    + destruct (run_completes _ st Hinv) as (sched' & st' & Hrun' & Hdone).
      exists sched', (results st'). apply runWithConcurrency_Some.
      exists st'. by rewrite run_app, Hrun.
  - intros sched res (st & Hrun & Hdone & ->)%runWithConcurrency_Some.
    pose proof (Inv_run _ _ _ _ (Inv_start tasks maxConcurrency) Hrun) as Hinv.
    rewrite (results_final _ st Hinv);
      [|by apply allDone_inFlight|by eapply index_final].
    split; [by rewrite length_fmap|].
    split; intros i x Hi; by rewrite list_lookup_fmap, Hi.
  - intros sched rep Hrep.
    pose proof (generateStaticResults_Some _ _ _ _ _ _ Hrep) as ->.
    split; [done|]. apply caseResults_case_id.
  - destruct (generateStaticResults_completes suite apiUrl now fetched []
                (start (tasksOf suite fetched) 10) eq_refl) as (sched & rep & H).
    eauto.
Qed.

Example three_tasks_out_of_order :
  runWithConcurrency threeTasks 2 [1; 0; 1]%nat
  = Some [Some (Some 10%nat); Some (Some 20%nat); Some None].
Proof. vm_compute. reflexivity. Qed.

Example three_tasks_in_order :
  runWithConcurrency threeTasks 2 [0; 0; 1]%nat
  = Some [Some (Some 10%nat); Some (Some 20%nat); Some None].
Proof. vm_compute. reflexivity. Qed.

Example three_tasks_unfinished : runWithConcurrency threeTasks 2 [1; 0]%nat = None.
Proof. vm_compute. reflexivity. Qed.

(** Without a worker nothing runs and the array stays empty. *)
Example no_worker_no_result : runWithConcurrency threeTasks 0 [] = Some [].
Proof. vm_compute. reflexivity. Qed.

Lemma runner_index_fidelity_witness :
  length [Some (Some 10%nat); Some (Some 20%nat); @Some (option nat) None] = length threeTasks
  ∧ ∀ rep,
      generateStaticResults twoCaseSuite "http://localhost:8788" "2025-01-01T00:00:00.000Z"
        twoCaseFetched [1; 0]%nat = Some rep →
      TestCaseResult.case_id <$> StaticSuiteResults.cases rep
      = ["end-to-end"; "threshold"].
Proof.
  destruct (runner_index_fidelity threeTasks 2 twoCaseSuite "http://localhost:8788"
              "2025-01-01T00:00:00.000Z" twoCaseFetched ltac:(lia))
    as (_ & Hres & Hrep & _).
  split.
  - apply (Hres [1; 0; 1]%nat). vm_compute. reflexivity.
  - intros rep H. apply (Hrep [1; 0]%nat rep H).
Defined.

(** ** Concurrency ceiling *)

(** C8: the runner starts min(C, N) workers, each awaiting its own task.  In
    every state of an execution there are still min(C, N) workers, at most C
    tasks are in flight and no task is in flight twice.  A settlement is that
    of a worker that awaits a task; that worker then awaits the task under
    the cursor, which was neither in flight nor stored, or returns when the
    cursor has passed the last task, and the other workers are left as they
    were.  The settlement of every worker that awaits a task is handled: it
    stores the result of that task in its slot and moves the worker on.  A
    worker has returned only when no task is left unclaimed, and every
    execution can be continued until all workers have returned, when (with at
    least one worker) every task has been claimed.  The run of a suite uses
    10 workers. *)
Theorem concurrency_ceiling {T : Type} (tasks : list (Settled T)) (maxConcurrency : nat)
    (sched : list nat) (st : RunState T) :
  run tasks sched (start tasks maxConcurrency) = Some st →
  workers (start tasks maxConcurrency)
  = Some <$> seq 0 (maxConcurrency `min` length tasks)
  ∧ length (workers st) = maxConcurrency `min` length tasks
  ∧ (length (inFlight st) ≤ maxConcurrency)%nat
  ∧ NoDup (inFlight st)
  ∧ (∀ k st',
       settle tasks st k = Some st' →
       (∃ currentIndex, workers st !! k = Some (Some currentIndex))
       ∧ workers st' !! k
         = Some (if (length tasks <=? index st)%nat then None else Some (index st))
       ∧ (∀ k', k' ≠ k → workers st' !! k' = workers st !! k')
       ∧ (index st ∉ inFlight st)
       ∧ results st !! (index st) = None)
  ∧ (∀ k currentIndex,
       workers st !! k = Some (Some currentIndex) →
       ∃ t st',
         tasks !! currentIndex = Some t
         ∧ settle tasks st k = Some st'
         ∧ results st' !! currentIndex = Some (Some (slotOf t))
         ∧ index st'
           = (if (length tasks <=? index st)%nat then index st else S (index st)))
  ∧ (∀ k, workers st !! k = Some None → index st = length tasks)
  ∧ (∃ sched' st',
       run tasks sched' st = Some st'
       ∧ allDone st' = true
       ∧ ((1 ≤ maxConcurrency)%nat → index st' = length tasks))
  ∧ ∀ suite apiUrl now fetched sched',
      generateStaticResults suite apiUrl now fetched sched'
      = runWithConcurrency (tasksOf suite fetched) 10 sched' ≫= report suite apiUrl now.
Proof.
  intros Hrun.
  pose proof (Inv_run _ _ _ _ (Inv_start tasks maxConcurrency) Hrun) as Hinv.
  pose proof (run_workers_length _ _ _ _ Hrun) as Hlen.
  rewrite start_state in Hlen. cbn in Hlen. rewrite length_fmap, length_seq in Hlen.
  split; [by rewrite start_state|]. split; [done|]. split.
  { pose proof (inFlight_length st). lia. }
  split; [apply (inv_nodup _ _ Hinv)|].
  split; [|split; [|split; [|split; [|done]]]].
  - intros k st' Hs.
    pose proof Hs as (cur & t & w1 & w2 & Hw & Hk & Ht & ->)%settle_Some.
    split; [|split; [|split; [|split]]].
    + exists cur. rewrite Hw, <- Hk. by rewrite list_lookup_middle.
    + cbn. rewrite <- Hk, list_lookup_middle by done.
      unfold runNext. by destruct (length tasks <=? index st)%nat.
    + intros k' Hne. cbn. rewrite Hw.
      destruct (decide (k' < length w1)%nat).
      * by rewrite !lookup_app_l.
      * rewrite !lookup_app_r by lia.
        destruct (k' - length w1)%nat as [|m] eqn:E; [lia|done].
    + intros Hin. pose proof (inv_claimed _ _ Hinv _ Hin). lia.
    + apply lookup_ge_None_2. apply (inv_length _ _ Hinv).
  - intros k cur Hk.
    assert (cur ∈ inFlight st) as Hin.
    { unfold inFlight. apply list_elem_of_omap. exists (Some cur).
      split; [|done]. by eapply list_elem_of_lookup_2. }
    pose proof (inv_claimed _ _ Hinv _ Hin) as Hcur.
    pose proof (inv_index _ _ Hinv) as Hidx.
    destruct (lookup_lt_is_Some_2 tasks cur ltac:(lia)) as [t Ht].
    exists t. unfold settle. rewrite Hk, Ht. unfold runNext.
    destruct (length tasks <=? index st)%nat; eexists;
      (split; [done|]; split; [done|]; split; [|done]); cbn;
      apply array_set_lookup_eq.
  - intros k Hk. apply (inv_idle _ _ Hinv). by eapply list_elem_of_lookup_2.
  - destruct (run_completes tasks st Hinv) as (sched' & st' & Hrun' & Hdone).
    exists sched', st'. split; [done|]. split; [done|].
    intros HC. apply (index_final tasks maxConcurrency (sched ++ sched') st' HC); [|done].
    by rewrite run_app, Hrun.
Qed.

Lemma concurrency_ceiling_witness :
  (length (inFlight {| index := 3; results := [None; Some (Some 20%nat)];
                       workers := [Some 0%nat; Some 2%nat] |}) ≤ 2)%nat
  ∧ ∃ t st',
      threeTasks !! 2%nat = Some t
      ∧ settle threeTasks {| index := 3; results := [None; Some (Some 20%nat)];
                             workers := [Some 0%nat; Some 2%nat] |} 1 = Some st'
      ∧ results st' !! 2%nat = Some (Some (slotOf t))
      ∧ index st' = 3%nat.
Proof.
  destruct (concurrency_ceiling threeTasks 2 [1]%nat
              {| index := 3; results := [None; Some (Some 20%nat)];
                 workers := [Some 0%nat; Some 2%nat] |} eq_refl)
    as (_ & _ & Hceiling & _ & _ & Hhandled & _).
  split; [exact Hceiling|].
  exact (Hhandled 1%nat 2%nat eq_refl).
Defined.

(** ** Failure of the classifier call *)

(** The thrown value of a response that is not [ok] and whose body reads. *)
Lemma callNopeAPI_not_ok response body :
  Response.ok response = false →
  Response.text response = inr body →
  callNopeAPI (fetch_resolves response)
  = inl (ErrorObject ("API error (" +:+ pretty (Response.status response) +:+ "): " +:+ body)).
Proof. intros Hok Htext. cbn. by rewrite Hok, Htext. Qed.

(** A task fulfils, and its result depends on its own case and fetch only. *)
Lemma tasksOf_lookup suite fetched i :
  tasksOf suite fetched !! i
  = (fun testCase => fulfilled (task testCase (fetched i))) <$> TestSuite.cases suite !! i.
Proof. unfold tasksOf. apply list_lookup_imap. Qed.

(** C3: when the classifier call of a case throws, the result has
    actual severity [none], imminence [not_applicable], confidence 0, no
    domains, passed false, the three baseline checks false and no other check,
    score 0, and as error the text of what was thrown (the message of an
    [Error], the string of any other value); none of this depends on the
    expectations of the case.  What was thrown is what [fetch] rejected
    with; or, for a response that is not ok, an [Error] with the message
    "API error (status): body", which is not empty, when the body can be
    read, and what [response.text()] rejected with when it cannot; or, for a
    response that is ok, what [response.json()] rejected with.  The task
    still fulfils, the tasks of the other cases are what they are under any
    other outcome of this call, the run of the suite can always be completed
    to a report, and every report holds this result at the position of the
    case and, at every other position, the result of that case's own task. *)
Theorem classifier_failure_result (testCase : TestCase.t) (fetched : FetchOutcome)
    (error : Thrown) :
  callNopeAPI fetched = inl error →
  TestCaseResult.actual (task testCase fetched)
  = {| Actual.overall_severity := none;
       Actual.overall_imminence := not_applicable;
       Actual.confidence := 0;
       Actual.domains := [];
       Actual.legal_flags := None;
       Actual.primary_concerns := None |}
  ∧ verdict (task testCase fetched) = (failedChecks, false, 0%Q)
  ∧ TestCaseResult.error (task testCase fetched) = Some (errorText error)
  ∧ (∀ other, verdict (task other fetched) = verdict (task testCase fetched))
  ∧ match fetched with
    | fetch_rejects thrown => error = thrown
    | fetch_resolves response =>
        if Response.ok response then Response.json response = inl error
        else
          match Response.text response with
          | inr body =>
              error
              = ErrorObject
                  ("API error (" +:+ pretty (Response.status response) +:+ "): " +:+ body)
              ∧ errorText error ≠ ""
          | inl thrown => error = thrown
          end
    end
  ∧ (∀ suite outcomes i,
       TestSuite.cases suite !! i = Some testCase →
       outcomes i = fetched →
       tasksOf suite outcomes !! i = Some (fulfilled (task testCase fetched))
       ∧ (∀ outcomes' j,
            j ≠ i → outcomes' j = outcomes j →
            tasksOf suite outcomes' !! j = tasksOf suite outcomes !! j)
       ∧ ∀ apiUrl now,
           (∃ sched rep, generateStaticResults suite apiUrl now outcomes sched = Some rep)
           ∧ ∀ sched rep,
               generateStaticResults suite apiUrl now outcomes sched = Some rep →
               StaticSuiteResults.cases rep !! i = Some (task testCase fetched)
               ∧ ∀ j other,
                   TestSuite.cases suite !! j = Some other →
                   StaticSuiteResults.cases rep !! j = Some (task other (outcomes j))).
Proof.
  intros Hcall. unfold task, verdict. rewrite Hcall. cbn.
  split; [done|]. split; [done|]. split; [done|]. split; [done|]. split.
  - destruct fetched as [thrown|response]; cbn in Hcall.
    + by injection Hcall as ->.
    + destruct (Response.ok response); cbn in Hcall; [done|].
      destruct (Response.text response) as [thrown|body].
      * by injection Hcall as ->.
      * injection Hcall as <-. done.
  - intros suite outcomes i Hcase Hout. split; [|split].
    + rewrite tasksOf_lookup, Hcase. cbn. rewrite Hout. unfold task. by rewrite Hcall.
    + intros outcomes' j Hj Ho. rewrite !tasksOf_lookup. by rewrite Ho.
    + intros apiUrl now. split.
      * destruct (generateStaticResults_completes suite apiUrl now outcomes []
                    (start (tasksOf suite outcomes) 10) eq_refl) as (sched & rep & H).
        eauto.
      * intros sched rep ->%generateStaticResults_Some.
        unfold caseResults. split.
        -- rewrite list_lookup_imap, Hcase. cbn. rewrite Hout. unfold task.
           by rewrite Hcall.
        -- intros j other Hj. by rewrite list_lookup_imap, Hj.
Qed.

Example server_error_text :
  TestCaseResult.error (task endToEndCase serverError)
  = Some "API error (500): Internal Server Error".
Proof. vm_compute. reflexivity. Qed.

(** A response that is not ok and whose body cannot be read: the error is
    the text of what the read rejected with, here the empty string. *)
Example unreadable_body_error :
  TestCaseResult.error (task endToEndCase unreadableServerError) = Some "".
Proof. vm_compute. reflexivity. Qed.

Lemma classifier_failure_result_witness :
  verdict (task endToEndCase serverError) = (failedChecks, false, 0%Q)
  ∧ TestCaseResult.error (task endToEndCase serverError)
    = Some "API error (500): Internal Server Error".
Proof.
  destruct (classifier_failure_result endToEndCase serverError
              (ErrorObject "API error (500): Internal Server Error") eq_refl)
    as (_ & Hv & He & _).
  split; [exact Hv|exact He].
Defined.

(** The call rejects with an [Error] whose message is empty: the error text
    of the result is the empty string. *)
Lemma classifier_failure_empty_error :
  callNopeAPI (fetch_rejects (ErrorObject "")) = inl (ErrorObject "")
  ∧ TestCaseResult.error (task endToEndCase (fetch_rejects (ErrorObject ""))) = Some ""
  ∧ ¬ ∃ text, TestCaseResult.error (task endToEndCase (fetch_rejects (ErrorObject "")))
              = Some text ∧ text ≠ "".
Proof.
  split; [reflexivity|]. split; [reflexivity|].
  intros (text & H & Hne). cbn in H. by injection H as <-.
Qed.

(** ** The overall score *)


Lemma overallScoreOf_nil : overallScoreOf [] = None.
Proof. reflexivity. Qed.




(** *** In double precision *)












Example three_case_report :
  (fun rep => (TestCaseResult.score <$> StaticSuiteResults.cases rep,
               StaticSuiteResults.overall_score rep,
               StaticSuiteResults.total_cases rep,
               StaticSuiteResults.passed_cases rep,
               StaticSuiteResults.failed_cases rep))
  <$> generateStaticResults threeCaseSuite "http://localhost:8788"
        "2025-01-01T00:00:00.000Z" threeCaseFetched [2; 0; 1]%nat
  = Some ([300 # 3; 0; 200 # 4]%Q, Some (1800 # 36)%Q, 3%nat, 1%nat, 2%nat).
Proof. vm_compute. reflexivity. Qed.



(** * Further properties of the checks *)

(** X1: the confidence check of a case is true exactly when the actual
    confidence is at least the expected minimum; no domain or legal flag
    check can take its key. *)
Theorem confidence_check_threshold (testCase : TestCase.t) (result : ApiResult.t) :
  ∃ b, allChecksOf testCase result !! "confidence" = Some b
       ∧ Checks.confidence (TestCaseResult.checks (successResult testCase result)) = b
       ∧ (b = true
          ↔ (TestCase.expected_min_confidence testCase <= ApiResult.confidence result)%Q).
Proof.
  exists (num_ge (ApiResult.confidence result) (TestCase.expected_min_confidence testCase)).
  split; [|split].
  - rewrite allChecksOf_base by in_list. apply baseChecks_confidence.
  - cbn. by rewrite lookup_total_alt, baseChecks_confidence.
  - unfold num_ge. apply Qle_bool_iff.
Qed.

(** The confidence entry written by one step. *)
Lemma domainStep_confidence result dc e a mc :
  findDomain result (ExpectedDomain.domain e) = Some a →
  ExpectedDomain.min_confidence e = Some mc →
  ¬ (mc == 0)%Q →
  domainStep result dc e !! (domain_str (ExpectedDomain.domain e) +:+ "_confidence")
  = Some (num_ge (ApiDomain.confidence a) mc).
Proof.
  intros Hf Hc Hnz. unfold domainStep. rewrite Hf, Hc.
  assert (truthy_num mc = true) as ->.
  { unfold truthy_num. apply negb_true_iff.
    destruct (Qeq_bool mc 0) eqn:E; [|done]. by apply Qeq_bool_iff in E. }
  apply lookup_insert_eq.
Qed.

(** X2: when the payload has a domain with the tag of an expected domain and
    that expected domain declares a minimum confidence other than zero, the
    step writes the confidence check of the domain: true exactly when the
    confidence of the first actual domain with the tag is at least the
    minimum.  It is the check of the case when no later expected domain has
    the same tag. *)
Theorem domain_confidence_threshold (testCase : TestCase.t) (result : ApiResult.t)
    (domainChecks : gmap string bool) (e : ExpectedDomain.t) (a : ApiDomain.t) (mc : Q) :
  findDomain result (ExpectedDomain.domain e) = Some a →
  ExpectedDomain.min_confidence e = Some mc →
  ¬ (mc == 0)%Q →
  ∃ b, (b = true ↔ (mc <= ApiDomain.confidence a)%Q)
       ∧ domainStep result domainChecks e
           !! (domain_str (ExpectedDomain.domain e) +:+ "_confidence") = Some b
       ∧ ∀ before after : list ExpectedDomain.t,
           TestCase.expected_domains testCase = Some (before ++ e :: after) →
           Forall (fun e' => ExpectedDomain.domain e' ≠ ExpectedDomain.domain e) after →
           allChecksOf testCase result
             !! (domain_str (ExpectedDomain.domain e) +:+ "_confidence") = Some b.
Proof.
  intros Hf Hc Hnz. exists (num_ge (ApiDomain.confidence a) mc).
  split; [apply Qle_bool_iff|]. split; [by apply domainStep_confidence|].
  intros before after Hexp Hafter.
  rewrite allChecksOf_domain by apply domainKeys_confidence.
  unfold domainChecksOf. rewrite Hexp, fold_left_app. cbn.
  rewrite fold_domainStep_other by auto.
  by apply domainStep_confidence.
Qed.

Lemma domain_confidence_threshold_witness :
  allChecksOf (withExpectedDomains thresholdCase (Some [selfWithConfidence (Some 0.9%Q)]))
              (payload high urgent 0.8 [actualDomain self high 0.8] None)
    !! "self_confidence" = Some false.
Proof.
  destruct (domain_confidence_threshold
              (withExpectedDomains thresholdCase (Some [selfWithConfidence (Some 0.9%Q)]))
              (payload high urgent 0.8 [actualDomain self high 0.8] None) ∅
              (selfWithConfidence (Some 0.9%Q)) (actualDomain self high 0.8) 0.9%Q
              eq_refl eq_refl ltac:(discriminate)) as (b & Hb & _ & Hcase).
  pose proof (Hcase [] [] eq_refl ltac:(constructor)) as H.
  replace b with false in H; [exact H|].
  destruct b; [|reflexivity].
  exfalso. assert (0.9 <= 0.8)%Q as Hle by (by apply Hb). revert Hle. vm_compute. auto.
Defined.

(** ** Number of checks and range of the score *)

Lemma baseChecks_keys testCase result k :
  is_Some (baseChecks testCase result !! k) → k ∈ baseKeys.
Proof.
  intros [b Hk]. unfold baseChecks in Hk.
  repeat (apply lookup_insert_Some in Hk as [[<- _]|[_ Hk]]; [in_list|]).
  by rewrite lookup_empty in Hk.
Qed.

Lemma baseChecks_size testCase result : size (baseChecks testCase result) = 3%nat.
Proof.
  unfold baseChecks.
  rewrite !map_size_insert_None, map_size_empty; [done|..];
    repeat (rewrite lookup_insert_ne by done); apply lookup_empty.
Qed.

Lemma checks_disjoint testCase result :
  domainChecksOf testCase result ##ₘ baseChecks testCase result
  ∧ legalFlagChecksOf testCase result
    ##ₘ domainChecksOf testCase result ∪ baseChecks testCase result.
Proof.
  split; apply map_disjoint_spec; intros k b1 b2 H1 H2.
  - eapply base_key_not_domain.
    + eapply baseChecks_keys. eauto.
    + eapply domainChecksOf_keys. eauto.
  - assert (k ∈ legalKeys) as Hl by (eapply legalFlagChecksOf_keys; eauto).
    apply lookup_union_Some_raw in H2 as [H2|[_ H2]].
    + eapply domain_key_not_legal; [|exact Hl]. eapply domainChecksOf_keys. eauto.
    + eapply base_key_not_legal; [|exact Hl]. eapply baseChecks_keys. eauto.
Qed.

Lemma keys_size_bound (m : gmap string bool) (l : list string) :
  (∀ k, is_Some (m !! k) → k ∈ l) → (size m ≤ length l)%nat.
Proof.
  intros H. rewrite <- (size_dom (D := gset string)).
  assert (dom m ⊆ list_to_set (C := gset string) l) as Hsub.
  { intros k Hk. apply elem_of_dom in Hk. apply elem_of_list_to_set. auto. }
  apply subseteq_size in Hsub. etrans; [exact Hsub|].
  clear. induction l as [|x l IH]; cbn.
  - by rewrite size_empty.
  - rewrite size_union_alt, size_singleton.
    pose proof (subseteq_size (list_to_set (C := gset string) l ∖ {[x]}) (list_to_set l)
                  ltac:(apply subseteq_difference_l; done)). lia.
Qed.

(** X3: the three check objects never share a key: a case has its three baseline
    checks, one check per key of the domain checks and one per key of the
    legal flag checks, at most eight domain checks and three legal flag
    checks, hence between 3 and 14 checks. *)
Theorem check_count (testCase : TestCase.t) (result : ApiResult.t) :
  totalChecksOf (allChecksOf testCase result)
  = (3 + size (domainChecksOf testCase result)
       + size (legalFlagChecksOf testCase result))%nat
  ∧ (size (domainChecksOf testCase result) ≤ 8)%nat
  ∧ (size (legalFlagChecksOf testCase result) ≤ 3)%nat
  ∧ (3 ≤ totalChecksOf (allChecksOf testCase result) ≤ 14)%nat.
Proof.
  destruct (checks_disjoint testCase result) as [Hd Hl].
  assert (totalChecksOf (allChecksOf testCase result)
          = (3 + size (domainChecksOf testCase result)
               + size (legalFlagChecksOf testCase result))%nat) as Htotal.
  { rewrite totalChecksOf_size. unfold allChecksOf, spread.
    rewrite map_size_disj_union by done.
    rewrite map_size_disj_union by done.
    rewrite baseChecks_size. lia. }
  pose proof (keys_size_bound _ domainKeys (domainChecksOf_keys testCase result)) as H8.
  pose proof (keys_size_bound _ legalKeys (legalFlagChecksOf_keys testCase result)) as H3.
  change (length domainKeys) with 8%nat in H8. change (length legalKeys) with 3%nat in H3.
  repeat split; [done|done|done|lia|lia].
Qed.

Lemma ratio_bounds (p t : nat) :
  (p ≤ t)%nat → (0 < t)%nat →
  (0 <= inject_Z (Z.of_nat p) / inject_Z (Z.of_nat t) * 100 <= 100)%Q
  ∧ ((inject_Z (Z.of_nat p) / inject_Z (Z.of_nat t) * 100 == 0)%Q ↔ p = 0%nat).
Proof.
  intros Hle Hpos.
  assert (0 < inject_Z (Z.of_nat t))%Q as Ht.
  { change 0%Q with (inject_Z 0). rewrite <- Zlt_Qlt. lia. }
  assert (0 <= inject_Z (Z.of_nat p))%Q as Hp.
  { change 0%Q with (inject_Z 0). rewrite <- Zle_Qle. lia. }
  assert (inject_Z (Z.of_nat p) <= inject_Z (Z.of_nat t))%Q as Hpt.
  { rewrite <- Zle_Qle. lia. }
  set (x := (inject_Z (Z.of_nat p) / inject_Z (Z.of_nat t))%Q).
  assert (inject_Z (Z.of_nat p) == inject_Z (Z.of_nat t) * x)%Q as Hx.
  { unfold x. rewrite Qmult_div_r; [done|lra]. }
  assert (0 <= x)%Q as H0.
  { unfold x. apply Qle_shift_div_l; [done|]. lra. }
  assert (x <= 1)%Q as H1.
  { unfold x. apply Qle_shift_div_r; [done|]. lra. }
  split; [split; lra|]. split.
  - intros Hz. assert (x == 0)%Q as Hx0 by lra.
    rewrite Hx0, Qmult_0_r in Hx. change 0%Q with (inject_Z 0) in Hx.
    rewrite inject_Z_injective in Hx. lia.
  - intros ->. unfold x. change (inject_Z (Z.of_nat 0)) with 0%Q.
    unfold Qdiv. by rewrite !Qmult_0_l.
Qed.

(** X4: the score of a result lies between 0 and 100.  When the call succeeded
    it is 0 exactly when no check of the case is true. *)
Theorem score_range (testCase : TestCase.t) (fetched : FetchOutcome) :
  (0 <= TestCaseResult.score (task testCase fetched) <= 100)%Q
  ∧ ∀ result, callNopeAPI fetched = inr result →
      ((TestCaseResult.score (task testCase fetched) == 0)%Q
       ↔ ∀ check b, allChecksOf testCase result !! check = Some b → b = false).
Proof.
  unfold task. destruct (callNopeAPI fetched) as [error|result].
  - cbn. split; [split; lra|done].
  - change (TestCaseResult.score (successResult testCase result))
      with (scoreOf (allChecksOf testCase result)).
    set (m := allChecksOf testCase result).
    destruct (filter_true_length (values m)) as [Hle _].
    assert (length (values m) = totalChecksOf m) as Hlen.
    { by rewrite values_length, totalChecksOf_size. }
    rewrite Hlen in Hle. fold (passedChecksOf m) in Hle.
    assert (0 < totalChecksOf m)%nat as Hpos.
    { pose proof (totalChecksOf_bounds testCase result). fold m in H. lia. }
    destruct (ratio_bounds _ _ Hle Hpos) as [Hb Hz]. fold (scoreOf m) in Hb, Hz.
    split; [done|]. intros ? [= <-]. rewrite Hz.
    unfold passedChecksOf, values. split.
    + intros H0 check b Hk. destruct b; [|done]. exfalso.
      apply elem_of_map_to_list in Hk.
      assert (true ∈ List.filter (λ v : bool, v) (map_to_list m).*2) as Hin.
      { apply list_elem_of_In, filter_In. split; [|done].
        apply list_elem_of_In, list_elem_of_fmap. by exists (check, true). }
      destruct (List.filter _ _); [by apply not_elem_of_nil in Hin|done].
    + intros Hall.
      destruct (List.filter (λ v : bool, v) (map_to_list m).*2) as [|v l] eqn:E; [done|].
      exfalso.
      assert (In v (List.filter (λ v : bool, v) (map_to_list m).*2)) as Hin.
      { rewrite E. by left. }
      apply filter_In in Hin as [Hin Hv].
      apply list_elem_of_In, list_elem_of_fmap in Hin as ([k b] & -> & Hin).
      apply elem_of_map_to_list in Hin. cbn in Hv. apply Hall in Hin. congruence.
Qed.

Lemma score_range_witness :
  (TestCaseResult.score
     (task endToEndCase (okResponse (payload none not_applicable 0.1 [] None))) == 0)%Q.
Proof.
  destruct (score_range endToEndCase (okResponse (payload none not_applicable 0.1 [] None)))
    as [_ H].
  apply (H (payload none not_applicable 0.1 [] None) eq_refl).
  intros check b Hb.
  assert (check ∈ baseKeys ++ domainKeys ++ legalKeys) as Hin.
  { apply (allChecksOf_keys endToEndCase (payload none not_applicable 0.1 [] None)). eauto. }
  apply list_elem_of_In in Hin. vm_compute in Hin.
  repeat (destruct Hin as [<-|Hin]; [vm_compute in Hb; congruence|]).
  destruct Hin.
Defined.

(** ** Legal flag checks that are made *)

Lemma allChecksOf_legalKey testCase result k :
  k ∈ legalKeys → allChecksOf testCase result !! k = legalFlagChecksOf testCase result !! k.
Proof.
  intros Hk. unfold allChecksOf, spread.
  destruct (legalFlagChecksOf testCase result !! k) as [b|] eqn:E.
  - by apply lookup_union_Some_l.
  - rewrite lookup_union_r by done.
    apply lookup_union_None. split; apply eq_None_not_Some.
    + intros H%domainChecksOf_keys. by eapply domain_key_not_legal.
    + intros H%baseChecks_keys. by eapply base_key_not_legal.
Qed.

Lemma present_is_true (f : option PresentFlag.t) (expected : bool) :
  present_is f expected = true ↔ ∃ pf, f = Some pf ∧ PresentFlag.present pf = Some expected.
Proof.
  unfold present_is. destruct f as [pf|].
  - destruct (PresentFlag.present pf) as [b|] eqn:E.
    + rewrite eqb_true_iff. split.
      * intros ->. eauto.
      * intros (pf' & [= <-] & H). congruence.
    + split; [done|]. intros (pf' & [= <-] & H). congruence.
  - split; [done|]. by intros (pf' & H & _).
Qed.

Lemma level_is_true (f : option LevelFlag.t) (expected : string) :
  level_is f expected = true ↔ ∃ lf, f = Some lf ∧ LevelFlag.level lf = Some expected.
Proof.
  unfold level_is. destruct f as [lf|].
  - destruct (LevelFlag.level lf) as [s|] eqn:E.
    + rewrite bool_decide_eq_true. split.
      * intros ->. eauto.
      * intros (lf' & [= <-] & H). congruence.
    + split; [done|]. intros (lf' & [= <-] & H). congruence.
  - split; [done|]. by intros (lf' & H & _).
Qed.

(** X5: for the three flags the script compares, the merged check object has the
    check named after the flag exactly when the expectation is declared; the
    check is true exactly when the payload has legal flags, these have the
    flag, and its [present] (for [duty_to_warn]) or [level] (for the ratings)
    is the expected value. *)
Theorem compared_legal_flags (testCase : TestCase.t) (result : ApiResult.t)
    (flags : ExpectedLegalFlags.t) :
  TestCase.expected_legal_flags testCase = Some flags →
  (match ExpectedLegalFlags.duty_to_warn flags with
   | Some b =>
       ∃ c, allChecksOf testCase result !! "duty_to_warn" = Some c
            ∧ (c = true
               ↔ ∃ f, opt_member (ApiResult.legal_flags result) ApiLegalFlags.duty_to_warn
                      = Some f ∧ PresentFlag.present f = Some b)
   | None => allChecksOf testCase result !! "duty_to_warn" = None
   end)
  ∧ (match ExpectedLegalFlags.mash_rating flags with
     | Some m =>
         ∃ c, allChecksOf testCase result !! "mash_rating" = Some c
              ∧ (c = true
                 ↔ ∃ f, opt_member (ApiResult.legal_flags result) ApiLegalFlags.mash_rating
                        = Some f ∧ LevelFlag.level f = Some (mash_str m))
     | None => allChecksOf testCase result !! "mash_rating" = None
     end)
  ∧ (match ExpectedLegalFlags.dash_rating flags with
     | Some m =>
         ∃ c, allChecksOf testCase result !! "dash_rating" = Some c
              ∧ (c = true
                 ↔ ∃ f, opt_member (ApiResult.legal_flags result) ApiLegalFlags.dash_rating
                        = Some f ∧ LevelFlag.level f = Some (dash_str m))
     | None => allChecksOf testCase result !! "dash_rating" = None
     end).
Proof.
  intros Hf.
  destruct (legalFlagChecksOf_compared testCase result flags Hf) as (H1 & H2 & H3).
  rewrite !allChecksOf_legalKey by in_list. rewrite H1, H2, H3.
  split; [|split].
  - destruct (ExpectedLegalFlags.duty_to_warn flags) as [b|]; [|done].
    eexists. split; [done|]. apply present_is_true.
  - destruct (ExpectedLegalFlags.mash_rating flags) as [m|]; [|done].
    eexists. split; [done|]. apply level_is_true.
  - destruct (ExpectedLegalFlags.dash_rating flags) as [m|]; [|done].
    eexists. split; [done|]. apply level_is_true.
Qed.

(** A case expecting [duty_to_warn] to be false, and a payload without legal
    flags. *)
Lemma compared_legal_flags_witness :
  allChecksOf
    (withLegalFlags endToEndCase (Some (onlyDutyToWarn false)))
    (payload high urgent 0.8 [] None) !! "mash_rating" = None.
Proof.
  destruct (compared_legal_flags
              (withLegalFlags endToEndCase (Some (onlyDutyToWarn false)))
              (payload high urgent 0.8 [] None) (onlyDutyToWarn false) eq_refl)
    as (_ & H & _).
  exact H.
Defined.

(** X6: when the payload has no legal flags, every declared expectation on
    [duty_to_warn], [mash_rating] or [dash_rating] gives a false check, also
    the expectation that [duty_to_warn] is false: the case is not passed. *)
Theorem absent_legal_flags_fail (testCase : TestCase.t) (result : ApiResult.t)
    (flags : ExpectedLegalFlags.t) :
  TestCase.expected_legal_flags testCase = Some flags →
  ApiResult.legal_flags result = None →
  (is_Some (ExpectedLegalFlags.duty_to_warn flags) →
   allChecksOf testCase result !! "duty_to_warn" = Some false)
  ∧ (is_Some (ExpectedLegalFlags.mash_rating flags) →
     allChecksOf testCase result !! "mash_rating" = Some false)
  ∧ (is_Some (ExpectedLegalFlags.dash_rating flags) →
     allChecksOf testCase result !! "dash_rating" = Some false)
  ∧ (is_Some (ExpectedLegalFlags.duty_to_warn flags)
     ∨ is_Some (ExpectedLegalFlags.mash_rating flags)
     ∨ is_Some (ExpectedLegalFlags.dash_rating flags) →
     TestCaseResult.passed (successResult testCase result) = false).
Proof.
  intros Hf Hnone.
  destruct (legalFlagChecksOf_compared testCase result flags Hf) as (H1 & H2 & H3).
  rewrite Hnone in H1, H2, H3. cbn in H1, H2, H3.
  rewrite <- !allChecksOf_legalKey in H1, H2, H3 by in_list.
  assert (∀ k, allChecksOf testCase result !! k = Some false →
               TestCaseResult.passed (successResult testCase result) = false) as Hfail.
  { intros k Hk.
    change (TestCaseResult.passed (successResult testCase result))
      with (allPassedOf (allChecksOf testCase result)).
    apply not_true_iff_false. intros Hall.
    pose proof (proj1 (allPassedOf_spec _) Hall _ _ Hk). done. }
  split; [|split; [|split]].
  - intros [b Hb]. by rewrite H1, Hb.
  - intros [m Hm]. by rewrite H2, Hm.
  - intros [m Hm]. by rewrite H3, Hm.
  - intros [[b Hb]|[[m Hm]|[m Hm]]].
    + apply (Hfail "duty_to_warn"). by rewrite H1, Hb.
    + apply (Hfail "mash_rating"). by rewrite H2, Hm.
    + apply (Hfail "dash_rating"). by rewrite H3, Hm.
Qed.

Lemma absent_legal_flags_fail_witness :
  TestCaseResult.passed
    (successResult (withLegalFlags endToEndCase (Some (onlyDutyToWarn false)))
                   (payload high urgent 0.8 [] None)) = false.
Proof.
  destruct (absent_legal_flags_fail
              (withLegalFlags endToEndCase (Some (onlyDutyToWarn false)))
              (payload high urgent 0.8 [] None) (onlyDutyToWarn false) eq_refl eq_refl)
    as (_ & _ & _ & H).
  apply H. left. by exists false.
Defined.

(** ** Expected domains the payload does not have *)

Lemma fold_domainStep_unmatched result (l : list ExpectedDomain.t) dc :
  (∀ e, e ∈ l → findDomain result (ExpectedDomain.domain e) = None) →
  fold_left (domainStep result) l dc = dc.
Proof.
  revert dc. induction l as [|e l IH]; intros dc H; [done|].
  cbn. unfold domainStep at 2. rewrite (H e) by left.
  apply IH. intros e' He'. apply H. by right.
Qed.

(** X7: when the payload has no domain with the tag of any expected domain of a
    case (in particular when it has no domains at all), no domain check is
    made: the checks, pass flag and score of the case are those of the same
    case without expected domains. *)
Theorem unmatched_domains_are_not_checked (testCase : TestCase.t) (result : ApiResult.t) :
  (∀ e d, e ∈ default [] (TestCase.expected_domains testCase) →
          d ∈ ApiResult.domains result →
          ApiDomain.domain d ≠ ExpectedDomain.domain e) →
  domainChecksOf testCase result = ∅
  ∧ Checks.domains (TestCaseResult.checks (successResult testCase result)) = None
  ∧ verdict (successResult testCase result)
    = verdict (successResult (withExpectedDomains testCase None) result).
Proof.
  intros H.
  assert (domainChecksOf testCase result = ∅) as Hempty.
  { unfold domainChecksOf.
    destruct (TestCase.expected_domains testCase) as [l|] eqn:E; [|done].
    apply fold_domainStep_unmatched. intros e He.
    apply findDomain_None. intros d Hd. by apply (H e d). }
  split; [done|].
  unfold verdict, successResult.
  cbn [TestCaseResult.checks TestCaseResult.passed TestCaseResult.score Checks.domains].
  rewrite Hempty.
  change (domainChecksOf (withExpectedDomains testCase None) result) with (∅ : gmap string bool).
  split; reflexivity.
Qed.

Lemma unmatched_domains_are_not_checked_witness :
  verdict (successResult thresholdCase (payload high urgent 0.8 [] None))
  = verdict (successResult (withExpectedDomains thresholdCase None)
                           (payload high urgent 0.8 [] None)).
Proof.
  apply (unmatched_domains_are_not_checked thresholdCase (payload high urgent 0.8 [] None)).
  intros e d _ Hd. cbn in Hd. by apply not_elem_of_nil in Hd.
Defined.

(** * Further properties of the runner *)

Lemma runWithConcurrency_no_worker {T} (tasks : list (Settled T)) (maxConcurrency : nat) :
  Nat.min maxConcurrency (length tasks) = 0%nat →
  runWithConcurrency tasks maxConcurrency [] = Some []
  ∧ ∀ sched res, runWithConcurrency tasks maxConcurrency sched = Some res →
                 sched = [] ∧ res = [].
Proof.
  intros Hmin.
  assert (start tasks maxConcurrency = {| index := 0; results := []; workers := [] |}) as Hs.
  { by rewrite start_state, Hmin. }
  split.
  - unfold runWithConcurrency. by rewrite Hs.
  - intros sched res. unfold runWithConcurrency. rewrite Hs.
    destruct sched as [|k sched]; cbn; [by intros [= <-]|done].
Qed.

(** X8: without a worker (a limit of zero, or no task) the only execution is the
    empty one: nothing is awaited and the array returned is empty, whatever
    the number of tasks. *)
Theorem no_worker_runs_nothing {T : Type} (tasks : list (Settled T)) (maxConcurrency : nat) :
  Nat.min maxConcurrency (length tasks) = 0%nat →
  runWithConcurrency tasks maxConcurrency [] = Some []
  ∧ ∀ sched res, runWithConcurrency tasks maxConcurrency sched = Some res →
                 sched = [] ∧ res = [].
Proof. apply runWithConcurrency_no_worker. Qed.

Lemma no_worker_runs_nothing_witness :
  runWithConcurrency threeTasks 0 [2; 0; 1]%nat = None.
Proof.
  destruct (runWithConcurrency threeTasks 0 [2; 0; 1]%nat) as [res|] eqn:E; [|reflexivity].
  destruct (proj2 (no_worker_runs_nothing threeTasks 0 eq_refl) _ _ E) as [Hsched _].
  discriminate Hsched.
Defined.

Lemma settle_index {T} (tasks : list (Settled T)) st k st' :
  settle tasks st k = Some st' → (index st ≤ index st' ≤ S (index st))%nat.
Proof.
  intros (cur & t & w1 & w2 & _ & _ & _ & ->)%settle_Some. cbn.
  unfold runNext. destruct (length tasks <=? index st)%nat; cbn; lia.
Qed.

Lemma run_index {T} (tasks : list (Settled T)) sched st st' :
  run tasks sched st = Some st' → (index st ≤ index st')%nat.
Proof.
  revert st. induction sched as [|k sched IH]; intros st; cbn.
  - intros [= <-]. lia.
  - destruct (settle tasks st k) as [st1|] eqn:Hs; [|done].
    intros Hrun%IH. apply settle_index in Hs. lia.
Qed.

(** X9: while a task is unclaimed no worker has returned: all min(C, N) workers
    await a task.  The tasks claimed so far are those before the cursor:
    each of them is in flight or has its slot written, and no other slot is
    written. *)
Theorem workers_busy_until_exhausted {T : Type} (tasks : list (Settled T))
    (maxConcurrency : nat) (sched : list nat) (st : RunState T) :
  run tasks sched (start tasks maxConcurrency) = Some st →
  ((index st < length tasks)%nat →
   length (inFlight st) = Nat.min maxConcurrency (length tasks))
  ∧ (Nat.min maxConcurrency (length tasks) ≤ index st ≤ length tasks)%nat
  ∧ ∀ i, (i < index st)%nat
         ↔ i ∈ inFlight st ∨ ∃ slot, results st !! i = Some (Some slot).
Proof.
  intros Hrun.
  pose proof (Inv_run _ _ _ _ (Inv_start tasks maxConcurrency) Hrun) as Hinv.
  pose proof (run_workers_length _ _ _ _ Hrun) as Hlen.
  rewrite start_state in Hlen. cbn in Hlen. rewrite length_fmap, length_seq in Hlen.
  pose proof (run_index _ _ _ _ Hrun) as Hidx. rewrite start_state in Hidx. cbn in Hidx.
  split; [|split].
  - intros Hlt. rewrite <- Hlen.
    assert (None ∉ workers st) as Hbusy.
    { intros Hin. apply (inv_idle _ _ Hinv) in Hin. lia. }
    clear -Hbusy. unfold inFlight.
    induction (workers st) as [|[i|] l IH]; cbn; [done| |].
    + f_equal. apply IH. intros Hin. apply Hbusy. by right.
    + exfalso. apply Hbusy. left.
  - split; [done|apply (inv_index _ _ Hinv)].
  - intros i. split.
    + intros Hlt. destruct (decide (i ∈ inFlight st)) as [Hin|Hni]; [by left|].
      right. destruct (inv_written _ _ Hinv i Hlt Hni) as (t & _ & Hr). eauto.
    + intros [Hin|[slot Hslot]].
      * by apply (inv_claimed _ _ Hinv).
      * apply lookup_lt_Some in Hslot. pose proof (inv_length _ _ Hinv). lia.
Qed.

Lemma workers_busy_until_exhausted_witness :
  length (inFlight (start threeTasks 2)) = Nat.min 2 (length threeTasks).
Proof.
  destruct (workers_busy_until_exhausted threeTasks 2 [] (start threeTasks 2) eq_refl)
    as (H & _ & _).
  apply H. vm_compute. lia.
Defined.

Lemma settledTasks_cons {T} (tasks : list (Settled T)) k sched st st' :
  settle tasks st k = Some st' →
  ∃ cur w1 w2,
    workers st = w1 ++ Some cur :: w2
    ∧ settledTasks tasks (k :: sched) st = cur :: settledTasks tasks sched st'
    ∧ inFlight st = omap id w1 ++ cur :: omap id w2
    ∧ ((index st < length tasks)%nat
       ∧ index st' = S (index st)
       ∧ inFlight st' = omap id w1 ++ index st :: omap id w2
       ∨ index st = index st'
         ∧ inFlight st' = omap id w1 ++ omap id w2).
Proof.
  intros Hs.
  pose proof Hs as (cur & t & w1 & w2 & Hw & Hk & Ht & ->)%settle_Some.
  exists cur, w1, w2. split; [done|]. split; [|split].
  - cbn [settledTasks]. rewrite Hs.
    by rewrite Hw, <- Hk, list_lookup_middle.
  - unfold inFlight. by rewrite Hw, inFlight_middle_Some.
  - unfold inFlight, runNext. cbn.
    destruct (Nat.leb_spec (length tasks) (index st)); cbn.
    + right. by rewrite inFlight_middle_None.
    + left. by rewrite inFlight_middle_Some.
Qed.

Lemma settledTasks_perm {T} (tasks : list (Settled T)) sched st st' :
  run tasks sched st = Some st' →
  settledTasks tasks sched st ++ inFlight st'
  ≡ₚ inFlight st ++ seq (index st) (index st' - index st).
Proof.
  revert st. induction sched as [|k sched IH]; intros st.
  - cbn. intros [= <-]. by rewrite Nat.sub_diag, app_nil_r.
  - cbn [run]. destruct (settle tasks st k) as [st1|] eqn:Hs; [|done].
    intros Hrun. pose proof (run_index _ _ _ _ Hrun) as Hidx.
    destruct (settledTasks_cons tasks k sched st st1 Hs)
      as (cur & w1 & w2 & _ & -> & -> & [(Hlt & Hi1 & Hf1)|(Hi1 & Hf1)]).
    + specialize (IH st1 Hrun). rewrite Hf1, Hi1 in IH.
      replace (index st' - index st)%nat with (S (index st' - S (index st))) by lia.
      cbn [seq]. cbn [app]. rewrite IH. solve_Permutation.
    + specialize (IH st1 Hrun). rewrite Hf1, <- Hi1 in IH.
      cbn [app]. rewrite IH. solve_Permutation.
Qed.

Lemma settledTasks_length {T} (tasks : list (Settled T)) sched st st' :
  run tasks sched st = Some st' → length (settledTasks tasks sched st) = length sched.
Proof.
  revert st. induction sched as [|k sched IH]; intros st; [done|].
  cbn [run]. destruct (settle tasks st k) as [st1|] eqn:Hs; [|done].
  intros Hrun.
  destruct (settledTasks_cons tasks k sched st st1 Hs) as (cur & w1 & w2 & _ & -> & _).
  cbn. f_equal. by apply IH.
Qed.

(** X10: in an execution every settlement is that of a different task, each
    settled task has its own result in its slot, and once all workers have
    returned (with at least one worker) the settled tasks are exactly the
    submitted ones: every task was awaited once and only once. *)
Theorem each_task_settles_once {T : Type} (tasks : list (Settled T)) (maxConcurrency : nat)
    (sched : list nat) (st : RunState T) :
  run tasks sched (start tasks maxConcurrency) = Some st →
  length (settledTasks tasks sched (start tasks maxConcurrency)) = length sched
  ∧ NoDup (settledTasks tasks sched (start tasks maxConcurrency))
  ∧ (∀ i, i ∈ settledTasks tasks sched (start tasks maxConcurrency) →
          ∃ t, tasks !! i = Some t ∧ results st !! i = Some (Some (slotOf t)))
  ∧ ((1 ≤ maxConcurrency)%nat → allDone st = true →
     settledTasks tasks sched (start tasks maxConcurrency) ≡ₚ seq 0 (length tasks)).
Proof.
  intros Hrun.
  pose proof (Inv_run _ _ _ _ (Inv_start tasks maxConcurrency) Hrun) as Hinv.
  pose proof (settledTasks_perm _ _ _ _ Hrun) as Hperm.
  rewrite inFlight_start in Hperm. rewrite start_state in Hperm at 2 3. cbn in Hperm.
  pose proof (run_index _ _ _ _ Hrun) as Hidx. rewrite start_state in Hidx. cbn in Hidx.
  rewrite <- seq_app in Hperm.
  replace (Nat.min maxConcurrency (length tasks)
           + (index st - Nat.min maxConcurrency (length tasks)))%nat
    with (index st) in Hperm by lia.
  assert (NoDup (settledTasks tasks sched (start tasks maxConcurrency) ++ inFlight st))
    as Hnd.
  { rewrite Hperm. apply NoDup_seq. }
  apply NoDup_app in Hnd as (Hnd1 & Hdisj & _).
  split; [by eapply settledTasks_length|]. split; [done|]. split.
  - intros i Hi. apply (inv_written _ _ Hinv).
    + assert (i ∈ seq 0 (index st)) as Hin.
      { rewrite <- Hperm. apply elem_of_app. by left. }
      apply elem_of_seq in Hin. lia.
    + by apply Hdisj.
  - intros HC Hdone.
    rewrite (index_final _ _ _ _ HC Hrun Hdone) in Hperm.
    apply allDone_inFlight in Hdone. by rewrite Hdone, app_nil_r in Hperm.
Qed.

Lemma each_task_settles_once_witness :
  settledTasks threeTasks [1; 0; 1]%nat (start threeTasks 2) ≡ₚ seq 0 (length threeTasks).
Proof.
  destruct (each_task_settles_once threeTasks 2 [1; 0; 1]%nat
              {| index := 3;
                 results := [Some (Some 10%nat); Some (Some 20%nat); Some None];
                 workers := [None; None] |} eq_refl) as (_ & _ & _ & H).
  apply H; [lia|reflexivity].
Defined.

Example settled_order_out_of_order :
  settledTasks threeTasks [1; 0; 1]%nat (start threeTasks 2) = [1; 0; 2]%nat.
Proof. vm_compute. reflexivity. Qed.

(** * Further properties of the report *)

Lemma runWithConcurrency_result {T} (tasks : list (Settled T)) C sched res :
  (1 ≤ C)%nat → runWithConcurrency tasks C sched = Some res →
  res = (fun t => Some (slotOf t)) <$> tasks.
Proof.
  intros HC (st & Hrun & Hdone & ->)%runWithConcurrency_Some.
  pose proof (Inv_run _ _ _ _ (Inv_start tasks C) Hrun) as Hinv.
  apply (results_final _ _ Hinv); [by apply allDone_inFlight|by eapply index_final].
Qed.

Lemma tally_None taskResults passed failed acc :
  tally taskResults passed failed acc = None ↔ Some None ∈ taskResults.
Proof.
  revert passed failed acc.
  induction taskResults as [|[[r|]|] l IH]; intros passed failed acc; cbn.
  - split; [done|]. by intros ?%not_elem_of_nil.
  - destruct (TestCaseResult.passed r); rewrite IH, elem_of_cons;
      (split; [by right|by intros [?|?]]).
  - split; [|done]. intros _. left.
  - rewrite IH, elem_of_cons. split; [by right|by intros [?|?]].
Qed.

Lemma report_counts_sum (suite : TestSuite.t) (apiUrl now : string)
    (taskResults : list (option (option TestCaseResult.t))) (rep : StaticSuiteResults.t) :
  report suite apiUrl now taskResults = Some rep →
  (StaticSuiteResults.passed_cases rep + StaticSuiteResults.failed_cases rep)%nat
  = length (StaticSuiteResults.cases rep).
Proof.
  intros (_ & _ & Hp & Hf & _)%report_Some. rewrite Hp, Hf. clear.
  induction (StaticSuiteResults.cases rep) as [|r l IH]; [done|].
  cbn. destruct (TestCaseResult.passed r); cbn; lia.
Qed.

(** X11: the tally throws exactly when a slot of the array holds the placeholder
    of a rejected task.  Otherwise the report lists the results of the slots
    that hold one, in order, skipping holes, and its passed and failed counts
    add up to the number of listed cases. *)
Theorem report_of_array (suite : TestSuite.t) (apiUrl now : string)
    (taskResults : list (option (option TestCaseResult.t))) :
  (report suite apiUrl now taskResults = None ↔ Some None ∈ taskResults)
  ∧ ∀ rep, report suite apiUrl now taskResults = Some rep →
      StaticSuiteResults.cases rep = presentResults taskResults
      ∧ (StaticSuiteResults.passed_cases rep + StaticSuiteResults.failed_cases rep)%nat
        = length (StaticSuiteResults.cases rep).
Proof.
  split.
  - unfold report.
    destruct (tally taskResults 0 0 []) as [[[p f] rs]|] eqn:E.
    + split; [done|]. intros Hin%(tally_None _ 0%nat 0%nat []). congruence.
    + split; [|done]. intros _. by apply (tally_None _ 0%nat 0%nat []).
  - intros rep Hrep. split; [|by eapply report_counts_sum].
    by apply report_Some in Hrep as (Hcases & _).
Qed.

Lemma report_of_array_witness :
  report twoCaseSuite "http://localhost:8788" "2025-01-01T00:00:00.000Z"
    [Some (Some (task endToEndCase serverError)); Some None] = None.
Proof.
  apply (report_of_array twoCaseSuite "http://localhost:8788" "2025-01-01T00:00:00.000Z"
           [Some (Some (task endToEndCase serverError)); Some None]).
  right. left.
Defined.





(** X13: the run of a suite without cases has one execution, the empty one; its
    report has no case, zero counts, and no overall score: the division of 0
    by 0 does not give a number. *)
Theorem empty_suite_report (suite : TestSuite.t) (apiUrl now : string)
    (fetched : nat → FetchOutcome) :
  TestSuite.cases suite = [] →
  (∃ rep, generateStaticResults suite apiUrl now fetched [] = Some rep
          ∧ StaticSuiteResults.cases rep = []
          ∧ StaticSuiteResults.total_cases rep = 0%nat
          ∧ StaticSuiteResults.passed_cases rep = 0%nat
          ∧ StaticSuiteResults.failed_cases rep = 0%nat
          ∧ StaticSuiteResults.overall_score rep = None)
  ∧ ∀ sched rep, generateStaticResults suite apiUrl now fetched sched = Some rep →
                 sched = [].
Proof.
  intros Hnil.
  assert (tasksOf suite fetched = []) as Htasks.
  { unfold tasksOf. by rewrite Hnil. }
  destruct (runWithConcurrency_no_worker (tasksOf suite fetched) 10) as [Hrun Honly].
  { rewrite Htasks. reflexivity. }
  split.
  - unfold generateStaticResults. rewrite Hrun.
    eexists. split; [reflexivity|]. cbn. by rewrite Hnil.
  - intros sched rep. unfold generateStaticResults.
    destruct (runWithConcurrency (tasksOf suite fetched) 10 sched) as [res|] eqn:E; [|done].
    intros _. by destruct (Honly sched res E).
Qed.


Lemma empty_suite_report_witness :
  ∃ rep,
    generateStaticResults emptySuite "http://localhost:8788" "2025-01-01T00:00:00.000Z"
      twoCaseFetched [] = Some rep
    ∧ StaticSuiteResults.overall_score rep = None.
Proof.
  destruct (empty_suite_report emptySuite "http://localhost:8788" "2025-01-01T00:00:00.000Z"
              twoCaseFetched eq_refl) as [(rep & Hrep & _ & _ & _ & _ & Hscore) _].
  exists rep. split; [exact Hrep|exact Hscore].
Defined.

(** X14: the report of a suite does not depend on the order in which the calls
    settle: two complete executions of the run, under the same answers of the
    classifier and the same time stamp, give the same report, which is the
    report of the results of the cases taken in suite order. *)
Theorem report_independent_of_schedule (suite : TestSuite.t) (apiUrl now : string)
    (fetched : nat → FetchOutcome) (sched1 sched2 : list nat)
    (rep1 rep2 : StaticSuiteResults.t) :
  generateStaticResults suite apiUrl now fetched sched1 = Some rep1 →
  generateStaticResults suite apiUrl now fetched sched2 = Some rep2 →
  rep1 = rep2
  ∧ report suite apiUrl now ((fun r => Some (Some r)) <$> caseResults suite fetched)
    = Some rep1.
Proof.
  unfold generateStaticResults. intros H1 H2.
  destruct (runWithConcurrency (tasksOf suite fetched) 10 sched1) as [res1|] eqn:E1; [|done].
  destruct (runWithConcurrency (tasksOf suite fetched) 10 sched2) as [res2|] eqn:E2; [|done].
  apply runWithConcurrency_result in E1, E2; [|lia..].
  rewrite tasksOf_slots in E1, E2. subst res1 res2.
  split; [congruence|done].
Qed.

Lemma report_independent_of_schedule_witness :
  generateStaticResults threeCaseSuite "http://localhost:8788" "2025-01-01T00:00:00.000Z"
    threeCaseFetched [2; 0; 1]%nat
  = generateStaticResults threeCaseSuite "http://localhost:8788" "2025-01-01T00:00:00.000Z"
      threeCaseFetched [0; 1; 2]%nat.
Proof.
  destruct (generateStaticResults threeCaseSuite "http://localhost:8788"
              "2025-01-01T00:00:00.000Z" threeCaseFetched [2; 0; 1]%nat)
    as [rep1|] eqn:E1; [|vm_compute in E1; discriminate E1].
  destruct (generateStaticResults threeCaseSuite "http://localhost:8788"
              "2025-01-01T00:00:00.000Z" threeCaseFetched [0; 1; 2]%nat)
    as [rep2|] eqn:E2; [|vm_compute in E2; discriminate E2].
  f_equal. apply (report_independent_of_schedule _ _ _ _ _ _ _ _ E1 E2).
Defined.

(** * The [.env] file *)

(** ** Splitting and joining *)

Lemma split_on_nonempty sep s : split_on sep s ≠ [].
Proof.
  destruct s as [|c s]; cbn; [done|].
  destruct (c =? sep)%N; [done|]. by destruct (split_on sep s).
Qed.

Lemma join_split sep s : join_with sep (split_on sep s) = s.
Proof.
  induction s as [|c s IH]; [done|]. cbn [split_on].
  destruct (N.eqb_spec c sep) as [->|Hne].
  - pose proof (split_on_nonempty sep s).
    cbn. destruct (split_on sep s) as [|p ps]; [done|]. cbn in IH |- *. by rewrite IH.
  - pose proof (split_on_nonempty sep s).
    destruct (split_on sep s) as [|p ps]; [done|].
    destruct ps as [|q qs]; cbn in IH |- *; by rewrite IH.
Qed.

Lemma split_on_pieces sep s : Forall (fun piece => sep ∉ piece) (split_on sep s).
Proof.
  induction s as [|c s IH]; cbn.
  - constructor; [apply not_elem_of_nil|constructor].
  - destruct (N.eqb_spec c sep) as [->|Hne].
    + constructor; [apply not_elem_of_nil|done].
    + pose proof (split_on_nonempty sep s).
      destruct (split_on sep s) as [|p ps]; [done|].
      apply Forall_cons in IH as [Hp Hps]. constructor; [|done].
      rewrite elem_of_cons. intros [?|?]; [congruence|done].
Qed.

Lemma split_on_without sep s : sep ∉ s → split_on sep s = [s].
Proof.
  induction s as [|c s IH]; [done|]. rewrite elem_of_cons. intros Hni. cbn.
  destruct (N.eqb_spec c sep) as [->|Hne]; [tauto|].
  rewrite IH by tauto. done.
Qed.

Lemma split_on_app sep a b :
  split_on sep (a ++ sep :: b) = split_on sep a ++ split_on sep b.
Proof.
  induction a as [|c a IH]; cbn.
  - by rewrite N.eqb_refl.
  - destruct (c =? sep)%N; [by rewrite IH|].
    rewrite IH. pose proof (split_on_nonempty sep a).
    by destruct (split_on sep a).
Qed.

Lemma split_on_two_pieces sep s p q ps : split_on sep s = p :: q :: ps → sep ∈ s.
Proof.
  intros H. destruct (decide (sep ∈ s)) as [|Hni]; [done|].
  by rewrite split_on_without in H.
Qed.

(** ** Trimming *)

Lemma trimStart_ws w s : Forall (fun c => isWhiteSpace c = true) w →
  trimStart (w ++ s) = trimStart s.
Proof. induction 1 as [|c w Hc _ IH]; [done|]. cbn. by rewrite Hc. Qed.

Lemma trimStart_decompose s :
  ∃ w, s = w ++ trimStart s ∧ Forall (fun c => isWhiteSpace c = true) w.
Proof.
  induction s as [|c s (w & Hw & Hall)]; [by exists []|]. cbn.
  destruct (isWhiteSpace c) eqn:E.
  - exists (c :: w). split; [by rewrite <- app_comm_cons, <- Hw|by constructor].
  - by exists [].
Qed.

Lemma trimStart_head s c r : trimStart s = c :: r → isWhiteSpace c = false.
Proof.
  induction s as [|d s IH]; [done|]. cbn.
  destruct (isWhiteSpace d) eqn:E; [done|]. by intros [= <- _].
Qed.

Lemma trimStart_nonws c s : isWhiteSpace c = false → trimStart (c :: s) = c :: s.
Proof. intros H. cbn. by rewrite H. Qed.

Lemma trimStart_app_nonws x c y :
  isWhiteSpace c = false → trimStart (x ++ c :: y) = trimStart x ++ c :: y.
Proof.
  intros Hc. induction x as [|d x IH]; cbn; [by rewrite Hc|].
  by destruct (isWhiteSpace d).
Qed.

Lemma trimStart_idem s : trimStart (trimStart s) = trimStart s.
Proof.
  destruct (trimStart s) as [|c r] eqn:E; [done|].
  apply trimStart_head in E. by apply trimStart_nonws.
Qed.

Lemma trimEnd_app_nonws x c y :
  isWhiteSpace c = false → trimEnd (x ++ c :: y) = x ++ c :: trimEnd y.
Proof.
  intros Hc. unfold trimEnd.
  rewrite rev_app_distr. cbn [rev]. rewrite <- app_assoc. cbn [app].
  rewrite trimStart_app_nonws by done.
  rewrite rev_app_distr. cbn [rev]. by rewrite rev_involutive, <- app_assoc.
Qed.

Lemma trimEnd_nil : trimEnd [] = [].
Proof. done. Qed.

Lemma trimEnd_idem s : trimEnd (trimEnd s) = trimEnd s.
Proof. unfold trimEnd. by rewrite rev_involutive, trimStart_idem. Qed.

Lemma trimEnd_all_ws w : Forall (fun c => isWhiteSpace c = true) w → trimEnd w = [].
Proof.
  intros H. unfold trimEnd.
  assert (Forall (fun c => isWhiteSpace c = true) (rev w)) as Hr.
  { apply Forall_forall. intros c Hc. rewrite Forall_forall in H. apply H.
    apply list_elem_of_In. apply in_rev. by apply list_elem_of_In. }
  rewrite <- (app_nil_r (rev w)), trimStart_ws by done. done.
Qed.

Lemma trimStart_trimEnd s : trimStart (trimEnd s) = trimEnd (trimStart s).
Proof.
  destruct (trimStart_decompose s) as (w & Hs & Hw).
  destruct (trimStart s) as [|c r] eqn:E.
  - rewrite app_nil_r in Hs. subst w. by rewrite trimEnd_all_ws.
  - pose proof (trimStart_head _ _ _ E) as Hc.
    rewrite Hs, trimEnd_app_nonws by done.
    rewrite trimStart_ws by done. rewrite trimStart_nonws by done.
    symmetry. apply (trimEnd_app_nonws [] c r Hc).
Qed.

Lemma trim_idem s : trim (trim s) = trim s.
Proof.
  unfold trim. by rewrite trimStart_trimEnd, trimStart_idem, trimEnd_idem.
Qed.

Lemma trim_trimStart s : trim (trimStart s) = trim s.
Proof. unfold trim. by rewrite trimStart_idem. Qed.

Lemma trim_trimEnd s : trim (trimEnd s) = trim s.
Proof. unfold trim. by rewrite trimStart_trimEnd, trimEnd_idem. Qed.

Lemma trimStart_suffix s c : c ∈ trimStart s → c ∈ s.
Proof.
  destruct (trimStart_decompose s) as (w & Hs & _). intros H.
  rewrite Hs. apply elem_of_app. by right.
Qed.

Lemma trim_elem_of s c : c ∈ trim s → c ∈ s.
Proof.
  unfold trim, trimEnd. intros H.
  apply trimStart_suffix.
  apply list_elem_of_In, in_rev, list_elem_of_In.
  apply trimStart_suffix.
  by apply list_elem_of_In, in_rev, list_elem_of_In in H.
Qed.

Lemma trim_head s c r : trim s = c :: r → isWhiteSpace c = false.
Proof. unfold trim. rewrite <- trimStart_trimEnd. apply trimStart_head. Qed.

Lemma trim_nonws_head c r :
  isWhiteSpace c = false → trim (c :: r) = c :: trimEnd r.
Proof.
  intros Hc. unfold trim. rewrite trimStart_nonws by done.
  apply (trimEnd_app_nonws [] c r Hc).
Qed.

Lemma split_on_first sep s key rest :
  split_on sep s = key :: rest → ∃ t, s = key ++ t.
Proof.
  intros H. pose proof (join_split sep s) as Hj. rewrite H in Hj.
  destruct rest as [|q qs]; cbn in Hj.
  - exists []. by rewrite app_nil_r.
  - eauto.
Qed.

(** ** What a line does *)

Lemma units_hash : units "#" = [35%N].
Proof. vm_compute. reflexivity. Qed.

Lemma startsWith_hash c r : startsWith (units "#") (c :: r) = (35 =? c)%N.
Proof. rewrite units_hash. cbn [startsWith]. by destruct r; rewrite andb_true_r. Qed.

Lemma loadEnvLine_assignment (env : gmap (list N) (list N)) (k v : list N) (c : N)
    (r : list N) :
  61%N ∉ k → trimStart k = c :: r → c ≠ 35%N →
  loadEnvLine env (k ++ 61%N :: v) = <[trim k := trim v]> env.
Proof.
  intros Hk Hstart Hc.
  pose proof (trimStart_head _ _ _ Hstart) as Hws.
  assert (trim (k ++ 61%N :: v) = trimStart k ++ 61%N :: trimEnd v) as Htrim.
  { unfold trim. rewrite trimStart_app_nonws by done.
    by rewrite trimEnd_app_nonws. }
  assert (61%N ∉ trimStart k) as Hk'.
  { intros Hin. by apply Hk, trimStart_suffix. }
  unfold loadEnvLine. rewrite Htrim, Hstart. cbn [app truthy_units andb].
  assert (startsWith (units "#") (c :: r ++ 61%N :: trimEnd v) = false) as ->.
  { rewrite startsWith_hash. destruct (N.eqb_spec 35 c); [congruence|done]. }
  cbn [negb]. rewrite app_comm_cons, <- Hstart.
  rewrite split_on_app, (split_on_without _ _ Hk'). cbn [app].
  rewrite Hstart. cbn [truthy_units andb].
  pose proof (split_on_nonempty 61 (trimEnd v)) as Hne.
  assert ((0 <? length (split_on 61 (trimEnd v)))%nat = true) as ->.
  { apply Nat.ltb_lt. destruct (split_on 61 (trimEnd v)); [done|cbn; lia]. }
  rewrite join_split, <- Hstart, trim_trimStart, trim_trimEnd. done.
Qed.

(** X15: a line [KEY=VALUE], with any white space around the line, the key and
    the value, sets the trimmed key to the trimmed value, provided the key has
    no [=], is not blank and does not begin with [#].  The value may contain
    [=] and may be empty. *)
Theorem env_assignment_line (env : gmap (list N) (list N)) (k v : list N) (c : N)
    (r : list N) :
  61%N ∉ k → trimStart k = c :: r → c ≠ 35%N →
  loadEnvLine env (k ++ 61%N :: v) = <[trim k := trim v]> env.
Proof. apply loadEnvLine_assignment. Qed.

Lemma env_assignment_line_witness :
  loadEnvLine ∅ (units "  API_URL = http://host/path?a=b  ")
  = <[units "API_URL" := units "http://host/path?a=b"]> ∅.
Proof.
  apply (env_assignment_line ∅ (units "  API_URL ") (units " http://host/path?a=b  ")
           65%N (units "PI_URL ")).
  - intros H. apply list_elem_of_In in H. vm_compute in H. intuition discriminate.
  - reflexivity.
  - discriminate.
Defined.

(** X16: a line leaves the environment as it is, or sets one variable whose name
    is not empty, has no [=], no white space at either end and does not begin
    with [#], to a value without white space at either end.  It leaves the
    environment as it is when it is blank, when its first character that is
    not white space is [#] or [=], and when it has no [=]. *)
Theorem env_line_effect (env : gmap (list N) (list N)) (line : list N) :
  (loadEnvLine env line = env
   ∨ ∃ k v, loadEnvLine env line = <[k := v]> env
            ∧ k ≠ [] ∧ (61%N ∉ k) ∧ trim k = k ∧ head k ≠ Some 35%N
            ∧ trim v = v ∧ (61%N ∈ line))
  ∧ (trim line = [] → loadEnvLine env line = env)
  ∧ (head (trim line) = Some 35%N → loadEnvLine env line = env)
  ∧ (head (trim line) = Some 61%N → loadEnvLine env line = env)
  ∧ (61%N ∉ line → loadEnvLine env line = env).
Proof.
  split; [|split; [|split; [|split]]].
  - unfold loadEnvLine.
    destruct (trim line) as [|c r] eqn:Ht; [by left|]. cbn [truthy_units andb].
    destruct (startsWith (units "#") (c :: r)) eqn:Hhash; [by left|]. cbn [negb].
    destruct (split_on 61 (c :: r)) as [|key valueParts] eqn:Hsplit; [by left|].
    destruct key as [|d key']; [by left|]. cbn [truthy_units andb].
    destruct valueParts as [|q qs]; [by left|]. right.
    assert ((0 <? length (q :: qs))%nat = true) as -> by done.
    pose proof (split_on_pieces 61 (c :: r)) as Hpieces.
    rewrite Hsplit in Hpieces. apply Forall_cons in Hpieces as [Hkey _].
    destruct (split_on_first _ _ _ _ Hsplit) as (t & Hprefix).
    cbn in Hprefix. injection Hprefix as <- _.
    pose proof (trim_head _ _ _ Ht) as Hws.
    exists (trim (c :: key')), (trim (join_with 61 (q :: qs))).
    split; [done|]. rewrite (trim_nonws_head c key' Hws).
    split; [done|]. split; [|split; [|split; [|split]]].
    + intros Hin. apply Hkey. rewrite <- (trim_nonws_head c key' Hws) in Hin.
      by apply trim_elem_of.
    + rewrite <- (trim_nonws_head c key' Hws). apply trim_idem.
    + cbn. intros [= ->]. rewrite startsWith_hash in Hhash. done.
    + apply trim_idem.
    + apply trim_elem_of. rewrite Ht. by eapply split_on_two_pieces.
  - intros Ht. unfold loadEnvLine. by rewrite Ht.
  - intros Hh. unfold loadEnvLine. destruct (trim line) as [|c r]; [done|].
    cbn in Hh. injection Hh as ->. by rewrite startsWith_hash.
  - intros Hh. unfold loadEnvLine. destruct (trim line) as [|c r]; [done|].
    cbn in Hh. injection Hh as ->. cbn [truthy_units andb].
    destruct (negb _); [|done]. cbn [split_on]. rewrite N.eqb_refl. done.
  - intros Hni. unfold loadEnvLine.
    assert (61%N ∉ trim line) as Hni'.
    { intros Hin. by apply Hni, trim_elem_of. }
    destruct (truthy_units (trim line) && negb _); [|done].
    by rewrite (split_on_without _ _ Hni'), andb_false_r.
Qed.

Lemma env_line_effect_witness :
  loadEnvLine (<[units "API_KEY" := units "secret"]> ∅) (units "  # API_KEY=other")
  = <[units "API_KEY" := units "secret"]> ∅.
Proof.
  destruct (env_line_effect (<[units "API_KEY" := units "secret"]> ∅)
              (units "  # API_KEY=other")) as (_ & _ & H & _).
  apply H. reflexivity.
Defined.

(** ** What a file does *)

Lemma loadEnvLine_union (m env : gmap (list N) (list N)) (line : list N) :
  loadEnvLine (m ∪ env) line = loadEnvLine m line ∪ env.
Proof.
  unfold loadEnvLine.
  destruct (truthy_units (trim line) && negb _); [|done].
  destruct (split_on 61 (trim line)) as [|key valueParts]; [done|].
  destruct (truthy_units key && _); [|done].
  by rewrite insert_union_l.
Qed.

Lemma fold_loadEnvLine_union (lines : list (list N)) (m env : gmap (list N) (list N)) :
  fold_left loadEnvLine lines (m ∪ env) = fold_left loadEnvLine lines m ∪ env.
Proof.
  revert m. induction lines as [|line lines IH]; intros m; [done|].
  cbn. by rewrite loadEnvLine_union, IH.
Qed.

(** X17: the variables a file sets override those of the environment and all
    other variables are kept; nothing happens when the file cannot be read.
    The lines act in order, so that a later line wins over an earlier one: a
    file ending in a line [KEY=VALUE] leaves the trimmed key set to the
    trimmed value. *)
Theorem env_file_overrides (content : list N) (env : gmap (list N) (list N)) :
  loadEnv None env = env
  ∧ loadEnv (Some content) env = loadEnv (Some content) ∅ ∪ env
  ∧ (∀ a b, content = a ++ 10%N :: b →
            loadEnv (Some content) env = loadEnv (Some b) (loadEnv (Some a) env))
  ∧ ∀ a k v c r,
      content = a ++ 10%N :: k ++ 61%N :: v →
      10%N ∉ k → 10%N ∉ v → 61%N ∉ k → trimStart k = c :: r → c ≠ 35%N →
      loadEnv (Some content) env !! trim k = Some (trim v).
Proof.
  assert (∀ a b, loadEnv (Some (a ++ 10%N :: b)) env
                 = loadEnv (Some b) (loadEnv (Some a) env)) as Hcomp.
  { intros a b. unfold loadEnv. by rewrite split_on_app, fold_left_app. }
  split; [done|]. split; [|split].
  - unfold loadEnv. rewrite <- fold_loadEnvLine_union. by rewrite (left_id_L ∅ (∪)).
  - intros a b ->. apply Hcomp.
  - intros a k v c r -> Hk10 Hv10 Hk Hstart Hc. rewrite Hcomp.
    unfold loadEnv at 1. rewrite split_on_without.
    + cbn [fold_left]. rewrite (loadEnvLine_assignment _ k v c r) by done.
      apply lookup_insert_eq.
    + rewrite elem_of_app, elem_of_cons. intros [?|[?|?]]; done.
Qed.

Lemma env_file_overrides_witness :
  loadEnv (Some (units "API_KEY=first" ++ 10%N :: units "API_KEY" ++ 61%N :: units "second"))
          (<[units "API_KEY" := units "inherited"]> ∅)
    !! units "API_KEY" = Some (units "second").
Proof.
  destruct (env_file_overrides
              (units "API_KEY=first" ++ 10%N :: units "API_KEY" ++ 61%N :: units "second")
              (<[units "API_KEY" := units "inherited"]> ∅)) as (_ & _ & _ & H).
  apply (H (units "API_KEY=first") (units "API_KEY") (units "second") 65%N
           (units "PI_KEY") eq_refl).
  - intros Hin. apply list_elem_of_In in Hin. vm_compute in Hin. intuition discriminate.
  - intros Hin. apply list_elem_of_In in Hin. vm_compute in Hin. intuition discriminate.
  - intros Hin. apply list_elem_of_In in Hin. vm_compute in Hin. intuition discriminate.
  - reflexivity.
  - discriminate.
Defined.

(** * The classifier request and the entry point *)

Lemma includes_elem_of_true {A} `{EqDecision A} (l : list A) (x : A) :
  includes l x = true ↔ x ∈ l.
Proof. rewrite includes_elem_of. apply bool_decide_eq_true. Qed.

(** X18: the request goes to the endpoint of the environment, or to
    [http://localhost:8788] when [API_URL] is unset or empty, at the path
    [/v1/evaluate].  It carries an [Authorization] header exactly when
    [API_KEY] is set to a non-empty string, then with the value [Bearer]
    followed by the key; an empty key gives the request of no key. *)
Theorem request_from_environment (messages : list Message.t)
    (env : gmap (list N) (list N)) :
  let request := requestOf messages (apiUrlOf env) (apiKeyOf env) in
  Request.headers request !! units "Content-Type" = Some (units "application/json")
  ∧ Request.headers request !! units "Authorization"
    = match env !! units "API_KEY" with
      | Some (c :: key) => Some (units "Bearer " ++ c :: key)
      | _ => None
      end
  ∧ Request.url request
    = match env !! units "API_URL" with
      | Some (c :: url) => c :: url
      | _ => units "http://localhost:8788"
      end ++ units "/v1/evaluate"
  ∧ requestOf messages (apiUrlOf env) (Some []) = requestOf messages (apiUrlOf env) None.
Proof.
  assert (units "Authorization" ≠ units "Content-Type") as Hne.
  { intros H. vm_compute in H. discriminate H. }
  cbn zeta. unfold requestOf, apiUrlOf, apiKeyOf. cbn [Request.headers Request.url].
  split; [|split; [|split]].
  - destruct (env !! units "API_KEY") as [[|c key]|]; cbn [truthy_units];
      rewrite ?(lookup_insert_ne _ _ _ _ Hne); apply lookup_insert_eq.
  - destruct (env !! units "API_KEY") as [[|c key]|]; cbn [truthy_units].
    + rewrite lookup_insert_ne by done. apply lookup_empty.
    + apply lookup_insert_eq.
    + rewrite lookup_insert_ne by done. apply lookup_empty.
  - by destruct (env !! units "API_URL") as [[|c url]|].
  - reflexivity.
Qed.

Lemma generateEach_spec (generate : list N → bool) (fixtures generated : list (list N))
    (ended : Ended) :
  generateEach generate fixtures = (generated, ended) →
  match ended with
  | returned => generated = fixtures ∧ Forall (fun f => generate f = true) fixtures
  | exited1 =>
      ∃ done failing rest,
        fixtures = done ++ failing :: rest
        ∧ generated = done ++ [failing]
        ∧ Forall (fun f => generate f = true) done
        ∧ generate failing = false
  end.
Proof.
  revert generated ended.
  induction fixtures as [|f fs IH]; intros generated ended; cbn.
  - intros [= <- <-]. by split.
  - destruct (generate f) eqn:Hf.
    + destruct (generateEach generate fs) as [g e] eqn:E.
      intros [= <- <-]. specialize (IH g e eq_refl).
      destruct e.
      * destruct IH as [-> Hall]. split; [done|by constructor].
      * destruct IH as (done & failing & rest & -> & -> & Hall & Hfail).
        exists (f :: done), failing, rest. repeat split; [by constructor|done].
    + intros [= <- <-]. exists [], f, fs. repeat split; [constructor|done].
Qed.

(** X19: with [--all] among the arguments the other arguments play no role: the
    suites generated are the entries of the fixtures directory that end in
    [.json], in directory order and each joined to the directory.  When a
    suite throws, the process exits with code 1 and the suites after it are
    not generated; the run returns only when every suite resolved.  A
    directory that cannot be read gives exit code 1 at once. *)
Theorem main_all_mode (args : list (list N)) (env : gmap (list N) (list N))
    (fixturesDir : list N) (world : World.t) :
  units "--all" ∈ args →
  main args env fixturesDir world = main [units "--all"] env fixturesDir world
  ∧ (World.fixtures world = None → main args env fixturesDir world = ([], exited1))
  ∧ ∀ entries, World.fixtures world = Some entries →
      let fixtures :=
        joinPath fixturesDir <$> List.filter (endsWith (units ".json")) entries in
      let generate := fun f => World.generate world f (apiUrlOf env) (apiKeyOf env) in
      match (main args env fixturesDir world).2 with
      | returned =>
          (main args env fixturesDir world).1 = fixtures
          ∧ Forall (fun f => generate f = true) fixtures
      | exited1 =>
          ∃ done failing rest,
            fixtures = done ++ failing :: rest
            ∧ (main args env fixturesDir world).1 = done ++ [failing]
            ∧ Forall (fun f => generate f = true) done
            ∧ generate failing = false
      end.
Proof.
  intros Hall. apply includes_elem_of_true in Hall.
  assert (includes [units "--all"] (units "--all") = true) as Hall'.
  { apply includes_elem_of_true. left. }
  unfold main. rewrite Hall, Hall'. split; [done|]. split.
  - by intros ->.
  - intros entries ->. cbn zeta.
    destruct (generateEach _ _) as [generated ended] eqn:E.
    apply generateEach_spec in E. exact E.
Qed.

Example main_all_stops_at_failure :
  main [units "suites/one.json"; units "--all"] ∅ (units "/repo/fixtures") batchWorld
  = ([units "/repo/fixtures/a.json"; units "/repo/fixtures/b.json"], exited1).
Proof. vm_compute. reflexivity. Qed.

Lemma main_all_mode_witness :
  main [units "suites/one.json"; units "--all"] ∅ (units "/repo/fixtures") batchWorld
  = main [units "--all"] ∅ (units "/repo/fixtures") batchWorld.
Proof.
  apply (main_all_mode [units "suites/one.json"; units "--all"] ∅
           (units "/repo/fixtures") batchWorld).
  right. left.
Defined.

(** X20: without [--all] one suite is generated: the first argument, or
    [fixtures/core-transparency.json] when there is no argument or the first
    one is empty.  When that path does not exist the process exits with code
    1 and nothing is generated; the fixtures directory is not read. *)
Theorem main_single_mode (args : list (list N)) (env : gmap (list N) (list N))
    (fixturesDir : list N) (world : World.t) :
  units "--all" ∉ args →
  let suitePath :=
    match args with
    | (c :: arg) :: _ => c :: arg
    | _ => units "fixtures/core-transparency.json"
    end in
  (World.existsSync world suitePath = false →
   main args env fixturesDir world = ([], exited1))
  ∧ (World.existsSync world suitePath = true →
     main args env fixturesDir world
     = ([suitePath],
        if World.generate world suitePath (apiUrlOf env) (apiKeyOf env)
        then returned else exited1))
  ∧ ∀ entries,
      main args env fixturesDir world
      = main args env fixturesDir
          {| World.fixtures := entries;
             World.existsSync := World.existsSync world;
             World.generate := World.generate world |}.
Proof.
  intros Hnot. cbn zeta.
  assert (includes args (units "--all") = false) as Hinc.
  { apply not_true_iff_false. by rewrite includes_elem_of_true. }
  unfold main. rewrite Hinc. cbn [World.existsSync World.generate].
  assert (match args with
          | arg :: _ =>
              if truthy_units arg then arg else units "fixtures/core-transparency.json"
          | [] => units "fixtures/core-transparency.json"
          end
          = match args with
            | (c :: arg) :: _ => c :: arg
            | _ => units "fixtures/core-transparency.json"
            end) as ->.
  { by destruct args as [|[|c arg] rest]. }
  split; [|split].
  - by intros ->.
  - intros ->. cbn. by destruct (World.generate _ _ _ _).
  - done.
Qed.

Lemma main_single_mode_witness :
  main [] ∅ (units "/repo/fixtures") batchWorld = ([], exited1).
Proof.
  apply (main_single_mode [] ∅ (units "/repo/fixtures") batchWorld).
  - apply not_elem_of_nil.
  - reflexivity.
Defined.

(** * The list of suites of the dashboard *)

Lemma startsWith_app (p x : list N) : startsWith p (p ++ x) = true.
Proof. induction p as [|c p IH]; cbn; [done|]. by rewrite N.eqb_refl. Qed.

Lemma startsWith_true (p s : list N) : startsWith p s = true → ∃ x, s = p ++ x.
Proof.
  revert s. induction p as [|c p IH]; intros s; cbn; [by exists s|].
  destruct s as [|d s]; [done|].
  intros [->%N.eqb_eq (x & ->)%IH]%andb_true_iff. by exists x.
Qed.

Lemma endsWith_app (p x : list N) : endsWith p (x ++ p) = true.
Proof. unfold endsWith. rewrite rev_app_distr. apply startsWith_app. Qed.

Lemma endsWith_true (p s : list N) : endsWith p s = true → ∃ x, s = x ++ p.
Proof.
  unfold endsWith. intros (x & Hx)%startsWith_true. exists (rev x).
  by rewrite <- (rev_involutive s), Hx, rev_app_distr, rev_involutive.
Qed.

Lemma units_dot_json : units ".json" = [46; 106; 115; 111; 110]%N.
Proof. vm_compute. reflexivity. Qed.

(** [.json] does not begin inside an identifier that does not contain it. *)
Lemma dot_json_not_straddling (c : N) (s : list N) :
  ¬ occursIn (units ".json") (c :: s) →
  startsWith (units ".json") ((c :: s) ++ units ".json") = false.
Proof.
  intros Hno. apply not_true_iff_false. intros Hstart. apply Hno.
  rewrite units_dot_json in *.
  destruct s as [|c2 [|c3 [|c4 [|c5 s]]]]; cbn [startsWith app] in Hstart;
    repeat (let H := fresh "H" in
            apply andb_true_iff in Hstart as [H Hstart]; apply N.eqb_eq in H);
    try discriminate.
  subst. exists [], s. reflexivity.
Qed.

Lemma replaceFirst_cons (p r : list N) (c : N) (s : list N) :
  startsWith p (c :: s) = false → replaceFirst p r (c :: s) = c :: replaceFirst p r s.
Proof. intros H. cbn [replaceFirst]. by rewrite H. Qed.

Lemma replaceFirst_dot_json (id : list N) :
  ¬ occursIn (units ".json") id →
  replaceFirst (units ".json") [] (id ++ units ".json") = id.
Proof.
  induction id as [|c id IH]; intros Hno.
  - rewrite units_dot_json. reflexivity.
  - rewrite <- app_comm_cons. rewrite replaceFirst_cons.
    + f_equal. apply IH. intros (a & b & ->). apply Hno. by exists (c :: a), b.
    + apply (dot_json_not_straddling c id Hno).
Qed.

Lemma occursIn_occursb (p s : list N) : occursIn p s → occursb p s = true.
Proof.
  intros (a & b & ->). induction a as [|c a IH].
  - cbn [app]. destruct (p ++ b) eqn:E; cbn [occursb]; rewrite <- E, startsWith_app; done.
  - cbn [app occursb]. rewrite IH. apply orb_true_r.
Qed.

Lemma load_cons (file : list N) (files : list (list N)) :
  load (Some (file :: files))
  = if endsWith (units ".json") file
    then replaceFirst (units ".json") [] file :: load (Some files)
    else load (Some files).
Proof. unfold load. cbn [List.filter]. by destruct (endsWith (units ".json") file). Qed.

(** X21: the dashboard lists the suites whose report file the generator wrote:
    for suite identifiers that do not contain [.json], the names of their
    report files are mapped back to the identifiers, in order.  Entries that
    do not end in [.json] are left out, and a directory that cannot be read
    gives no suite.  Only the first [.json] of a name is removed: the report
    of a suite named [a.json.b] is listed as [a.b.json]. *)
Theorem load_lists_generated_suites (ids : list (list N)) :
  Forall (fun id => ¬ occursIn (units ".json") id) ids →
  load (Some (reportFileName <$> ids)) = ids
  ∧ (∀ before entry after,
       endsWith (units ".json") entry = false →
       load (Some (before ++ entry :: after)) = load (Some (before ++ after)))
  ∧ load None = []
  ∧ load (Some [reportFileName (units "a.json.b")]) = [units "a.b.json"].
Proof.
  intros Hids. split; [|split; [|split]].
  - induction Hids as [|id ids Hid _ IH]; [done|].
    rewrite fmap_cons, load_cons. unfold reportFileName at 1 2.
    rewrite endsWith_app, (replaceFirst_dot_json id Hid). by f_equal.
  - intros before entry after Hentry. unfold load.
    rewrite !List.filter_app. cbn [List.filter]. by rewrite Hentry.
  - reflexivity.
  - vm_compute. reflexivity.
Qed.

Lemma load_lists_generated_suites_witness :
  load (Some [reportFileName (units "core-transparency"); reportFileName (units "v1.2")])
  = [units "core-transparency"; units "v1.2"].
Proof.
  apply (load_lists_generated_suites [units "core-transparency"; units "v1.2"]).
  repeat constructor; intros H%occursIn_occursb; vm_compute in H; discriminate H.
Defined.

(** * Further properties of the classifier call *)

(** X22: the call resolves exactly when [fetch] resolved with a response that is
    ok and whose body parses, and then with the parsed body.  For a response
    that is not ok the body is never parsed: whatever it holds, the case gets
    the failure result, not passed and with score 0. *)
Theorem call_resolves_iff_ok (testCase : TestCase.t) (fetched : FetchOutcome) :
  (∀ result,
     callNopeAPI fetched = inr result
     ↔ ∃ response, fetched = fetch_resolves response
                   ∧ Response.ok response = true
                   ∧ Response.json response = inr result)
  ∧ ∀ response json,
      fetched = fetch_resolves response →
      Response.ok response = false →
      task testCase (fetch_resolves (withJson response json)) = task testCase fetched
      ∧ TestCaseResult.passed (task testCase fetched) = false
      ∧ TestCaseResult.score (task testCase fetched) = 0%Q
      ∧ is_Some (TestCaseResult.error (task testCase fetched)).
Proof.
  split.
  - intros result. split.
    + destruct fetched as [error|response]; cbn; [done|].
      destruct (Response.ok response) eqn:Hok; cbn.
      * intros H. by exists response.
      * by destruct (Response.text response).
    + intros (response & -> & Hok & Hjson). cbn. by rewrite Hok.
  - intros response json -> Hok. unfold task. cbn. rewrite Hok. cbn.
    destruct (Response.text response); cbn; eauto.
Qed.

Lemma call_resolves_iff_ok_witness :
  TestCaseResult.passed (task endToEndCase serverError) = false.
Proof.
  destruct (call_resolves_iff_ok endToEndCase serverError) as [_ H].
  destruct (H _ (inr (payload high urgent 0.8 [] None)) eq_refl eq_refl) as (_ & Hp & _).
  exact Hp.
Defined.

(** * The dashboard pages *)

Lemma toggleExpand_elem_of (expandedCases : gset string) (caseId x : string) :
  x ∈ toggleExpand expandedCases caseId
  ↔ (x = caseId ∧ caseId ∉ expandedCases) ∨ (x ≠ caseId ∧ x ∈ expandedCases).
Proof.
  unfold toggleExpand. destruct (decide (caseId ∈ expandedCases)) as [Hc|Hc].
  - rewrite elem_of_difference, elem_of_singleton. split.
    + intros [? ?]. by right.
    + intros [[-> ?]|[? ?]]; done.
  - rewrite elem_of_union, elem_of_singleton. split.
    + intros [?| ->]; [|by left]. right. split; [|done]. by intros ->.
    + intros [[-> ?]|[? ?]]; auto.
Qed.

(** X23: expanding and collapsing a case: a toggle changes whether that case is
    expanded and nothing else, and two toggles of the same case give back
    the set of expanded cases. *)
Theorem toggleExpand_flips (expandedCases : gset string) (caseId : string) :
  (caseId ∈ toggleExpand expandedCases caseId ↔ caseId ∉ expandedCases)
  ∧ (∀ other, other ≠ caseId →
              (other ∈ toggleExpand expandedCases caseId ↔ other ∈ expandedCases))
  ∧ toggleExpand (toggleExpand expandedCases caseId) caseId = expandedCases.
Proof.
  split; [|split].
  - rewrite toggleExpand_elem_of. split.
    + by intros [[_ ?]|[? _]].
    + intros ?. by left.
  - intros other Hne. rewrite toggleExpand_elem_of. split.
    + by intros [[? _]|[_ ?]].
    + intros ?. by right.
  - apply set_eq. intros x. rewrite !toggleExpand_elem_of.
    destruct (decide (x = caseId)) as [->|Hne];
      destruct (decide (caseId ∈ expandedCases)); tauto.
Qed.

Lemma toggleExpand_flips_witness :
  "case-2" ∈ toggleExpand {["case-1"]} "case-1" ↔ "case-2" ∈ ({["case-1"]} : gset string).
Proof.
  apply (toggleExpand_flips {["case-1"]} "case-1"). discriminate.
Defined.

Lemma insertSuite_perm suite sorted : insertSuite suite sorted ≡ₚ suite :: sorted.
Proof.
  induction sorted as [|other rest IH]; cbn; [done|].
  destruct (Qle_bool _ _); [done|]. rewrite IH. apply Permutation_swap.
Qed.

Lemma insertSuite_sorted suite sorted :
  Sorted (fun a b => (scoreOrZero b <= scoreOrZero a)%Q) sorted →
  Sorted (fun a b => (scoreOrZero b <= scoreOrZero a)%Q) (insertSuite suite sorted).
Proof.
  induction 1 as [|other rest Hs IH Hhd]; cbn.
  - repeat constructor.
  - destruct (Qle_bool (scoreOrZero other) (scoreOrZero suite)) eqn:E.
    + apply Qle_bool_iff in E. repeat constructor; done.
    + assert (scoreOrZero suite <= scoreOrZero other)%Q as Hle.
      { apply Qlt_le_weak, Qnot_le_lt. intros H%Qle_bool_iff. congruence. }
      constructor; [done|].
      destruct rest as [|next rest']; cbn; [by constructor|].
      destruct (Qle_bool (scoreOrZero next) (scoreOrZero suite)); constructor; [done|].
      by inversion Hhd.
Qed.

Lemma insertSuite_filter (q : Q) suite sorted :
  List.filter (fun s => Qeq_bool (scoreOrZero s) q) (insertSuite suite sorted)
  = List.filter (fun s => Qeq_bool (scoreOrZero s) q) (suite :: sorted).
Proof.
  induction sorted as [|other rest IH]; [done|]. cbn [insertSuite].
  destruct (Qle_bool (scoreOrZero other) (scoreOrZero suite)) eqn:E; [done|].
  cbn [List.filter] in IH |- *. rewrite IH.
  destruct (Qeq_bool (scoreOrZero suite) q) eqn:E1; [|done].
  destruct (Qeq_bool (scoreOrZero other) q) eqn:E2; [|done].
  exfalso. apply Qeq_bool_iff in E1, E2.
  assert (Qle_bool (scoreOrZero other) (scoreOrZero suite) = true); [|congruence].
  apply Qle_bool_iff. rewrite E1, E2. apply Qle_refl.
Qed.

(** X24: the list page shows the suites it loaded by descending overall score, a
    suite without a score counting as 0; it shows the same suites, and suites
    with equal scores in the order they were loaded. *)
Theorem sortSuites_descending_stable (suites : list Suite.t) :
  sortSuites suites ≡ₚ suites
  ∧ Sorted (fun a b => (scoreOrZero b <= scoreOrZero a)%Q) (sortSuites suites)
  ∧ ∀ q, List.filter (fun s => Qeq_bool (scoreOrZero s) q) (sortSuites suites)
         = List.filter (fun s => Qeq_bool (scoreOrZero s) q) suites.
Proof.
  split; [|split].
  - induction suites as [|s l IH]; cbn; [done|]. by rewrite insertSuite_perm, IH.
  - induction suites as [|s l IH]; cbn; [constructor|]. by apply insertSuite_sorted.
  - intros q. induction suites as [|s l IH]; [done|].
    cbn [sortSuites foldr]. rewrite insertSuite_filter. cbn [List.filter].
    fold (sortSuites l). by rewrite IH.
Qed.
